(** * Text-region binarisation ([processing.cpp]): a shallow embedding

    The development follows the source file function by function:
    [intensity], [hasTextRatio], [isConnected], [keep], [countChildren],
    the region-selection loop and the mask compositor of [textBinary],
    and the point collection of [plateBounds].

    Conventions.
    - C++ [int] values are modelled by [Z].  Where the source multiplies
      or subtracts two [int]s or accumulates an [int] count (the areas of
      [hasTextRatio], the differences of [isConnected], the count of
      [countChildren]) the result is wrapped to 32 bits in two's
      complement, as the compiled program does.  Positions in one image
      or one vector and the offsets added to them (box corners, sample
      positions, loop bounds, [len / 2 + 1]) are written in [Z] as they
      stand.
    - [std::vector::operator[]] and [cv::Mat::at] outside their range are
      undefined behaviour in the source; the model returns [Fault] there.
    - Recursion over the hierarchy and the two [for] loops that follow
      links are not structural; they take a [fuel] argument and answer
      [OutOfFuel] when it is exhausted. *)

From Stdlib Require Import ZArith QArith Floats Lia.
From stdpp Require Import base tactics option list sorting.

Set Warnings "-inexact-float".
Local Open Scope Z_scope.

(** ** Results of partial computations *)

Inductive res (A : Type) : Type :=
  | Ret (a : A)
  | Fault
  | OutOfFuel.
Arguments Ret {A} a.
Arguments Fault {A}.
Arguments OutOfFuel {A}.

#[global] Instance res_ret : MRet res := fun A a => Ret a.
#[global] Instance res_bind : MBind res := fun A B f m =>
  match m with
  | Ret a => f a
  | Fault => Fault
  | OutOfFuel => OutOfFuel
  end.

(** [v[i]] for a [std::vector] indexed by an [int]. *)
Definition vec_at {A : Type} (v : list A) (i : Z) : res A :=
  if decide (0 <= i) then
    match v !! Z.to_nat i with
    | Some a => Ret a
    | None => Fault
    end
  else Fault.

(** ** 32-bit [int] arithmetic

    [int_wrap z] is the [int] congruent to [z] modulo [2^32]. *)

Definition int_wrap (z : Z) : Z := (z + 2 ^ 31) mod 2 ^ 32 - 2 ^ 31.

Definition int_add (a b : Z) : Z := int_wrap (a + b).
Definition int_sub (a b : Z) : Z := int_wrap (a - b).
Definition int_mul (a b : Z) : Z := int_wrap (a * b).

(** [std::abs] on [int]: the negation wraps like every other operation,
    so the absolute value of [INT_MIN] is [INT_MIN]. *)
Definition int_abs (a : Z) : Z := int_wrap (Z.abs a).

Arguments int_wrap : simpl never.
Arguments int_add : simpl never.
Arguments int_sub : simpl never.
Arguments int_mul : simpl never.
Arguments int_abs : simpl never.

(** ** The [double] values the source compares

    The source divides and compares small integers in [double].  A
    finite [double] is identified by the rational number it is nearest
    to: [Fin q], with [q] in lowest terms, stands for the binary64 number
    nearest to [q].  So [Fin (1 # 10)] is the literal [0.1], and the
    quotient of two integers [p] and [q] is [Fin (p / q)], the correctly
    rounded quotient.  Sums are formed of integers only and are exact.
    Every comparison of the source has an integer, a half-integer or
    [0.1] on one side and such a number or a quotient of two integers on
    the other; when the two sides differ, they differ by at least
    [1 / (10 * 2^31)], or by [1 / (2 * n)] for the mean over a contour of
    [n] points, far more than rounding to binary64 moves them, so
    comparing the rationals gives the outcome of comparing the doubles.
    Division by zero gives an infinity or a NaN as in IEEE 754, and every
    comparison with a NaN is false.  Operands are never negative zero. *)

Module Double.

Inductive double : Type :=
  | Fin (q : Q)
  | Inf (negative : bool)
  | NaN.

Definition of_int (z : Z) : double := Fin (inject_Z z).

Definition Qsign_neg (q : Q) : bool := (Qnum q <? 0)%Z.
Definition Qis_zero (q : Q) : bool := (Qnum q =? 0)%Z.

Definition add (a b : double) : double :=
  match a, b with
  | NaN, _ | _, NaN => NaN
  | Fin p, Fin q => Fin (Qred (p + q))
  | Inf s, Fin _ | Fin _, Inf s => Inf s
  | Inf s, Inf t => if Bool.eqb s t then Inf s else NaN
  end.

Definition div (a b : double) : double :=
  match a, b with
  | NaN, _ | _, NaN => NaN
  | Fin p, Fin q =>
      if Qis_zero q then
        (if Qis_zero p then NaN else Inf (Qsign_neg p))
      else Fin (Qred (p / q))
  | Fin _, Inf _ => Fin 0
  | Inf s, Fin q => Inf (xorb s (Qsign_neg q))
  | Inf _, Inf _ => NaN
  end.

Definition leb (a b : double) : bool :=
  match a, b with
  | NaN, _ | _, NaN => false
  | Fin p, Fin q => Qle_bool p q
  | Inf true, _ => true
  | _, Inf false => true
  | Inf false, _ => false
  | _, Inf true => false
  end.

Definition ltb (a b : double) : bool :=
  match a, b with
  | NaN, _ | _, NaN => false
  | _, _ => negb (leb b a)
  end.

Definition geb (a b : double) : bool := leb b a.
Definition gtb (a b : double) : bool := ltb b a.

End Double.
Import Double.

(** ** Geometry: [cv::Point], [cv::Size], [cv::Rect] *)

Record Point : Type := mkPoint { px : Z; py : Z }.
Record Size : Type := mkSize { s_width : Z; s_height : Z }.
Record Rect : Type := mkRect { r_x : Z; r_y : Z; r_width : Z; r_height : Z }.

Abbreviation Contour := (list Point).

#[global] Instance Point_eq_dec : EqDecision Point.
Proof. solve_decision. Defined.

(** Modelled from the spec: [cv::boundingRect] is an OpenCV primitive;
    the region's box is "min/max x,y derived from the contour's points".
    For a point set OpenCV returns the smallest up-right rectangle that
    contains every point, so a single pixel has a 1x1 box, and the empty
    rectangle for an empty point set. *)
Definition boundingRect (contour : Contour) : Rect :=
  match contour with
  | [] => mkRect 0 0 0 0
  | p :: ps =>
      let xmin := foldr Z.min (px p) (px <$> ps) in
      let xmax := foldr Z.max (px p) (px <$> ps) in
      let ymin := foldr Z.min (py p) (py <$> ps) in
      let ymax := foldr Z.max (py p) (py <$> ps) in
      mkRect xmin ymin (xmax - xmin + 1) (ymax - ymin + 1)
  end.

(** ** The region classifier *)

(** [hasTextRatio] (lines 44-54).  The ratio is formed from the two
    sides converted to [double]; the two areas of lines 51-52 are products
    of [int]s, converted to [double] afterwards. *)
Definition hasTextRatio (contour : Contour) (imgSize : Size) : bool :=
  let box := boundingRect contour in
  let ratio := div (of_int (r_width box)) (of_int (r_height box)) in
  if ltb ratio (Fin (1 # 10)) || gtb ratio (of_int 10) then false
  else
    let boxArea := of_int (int_mul (r_width box) (r_height box)) in
    let imgArea := of_int (int_mul (s_width imgSize) (s_height imgSize)) in
    geb boxArea (of_int 15) && leb boxArea (div imgArea (of_int 5)).

(** [isConnected] (lines 56-59).  [contour[0]] and
    [contour[contour.size() - 1]] are unchecked accesses: on an empty
    contour both are out of range.  The two differences and their
    absolute values are [int]s. *)
Definition isConnected (contour : Contour) : res bool :=
  first ← vec_at contour 0;
  last ← vec_at contour (Z.of_nat (length contour) - 1);
  mret (bool_decide (int_abs (int_sub (px first) (px last)) <= 1)
        && bool_decide (int_abs (int_sub (py first) (py last)) <= 1)).

(** [keep] (lines 61-63): [&&] evaluates [isConnected] only when
    [hasTextRatio] holds. *)
Definition keep (contour : Contour) (imgSize : Size) : res bool :=
  if hasTextRatio contour imgSize then isConnected contour else mret false.

(** ** Images

    A [cv::Mat] is a list of rows; [rows] is the number of rows and [cols]
    the length of the first row.  [Mat3] holds [cv::Vec3b] pixels (channel
    order B, G, R), [Mat1] holds single [uchar] values. *)

Record Vec3b : Type := mkVec3b { c0 : Z; c1 : Z; c2 : Z }.

Abbreviation Mat A := (list (list A)).
Abbreviation Mat3 := (list (list Vec3b)).
Abbreviation Mat1 := (list (list Z)).

Definition rows {A : Type} (m : Mat A) : Z := Z.of_nat (length m).
Definition cols {A : Type} (m : Mat A) : Z := Z.of_nat (length (hd [] m)).
Definition size {A : Type} (m : Mat A) : Size := mkSize (cols m) (rows m).

Definition black : Vec3b := mkVec3b 0 0 0.

(** [img.at<T>(loc)] for a location already known to be inside. *)
Definition mat_at {A : Type} (d : A) (m : Mat A) (loc : Point) : A :=
  nth (Z.to_nat (px loc)) (nth (Z.to_nat (py loc)) m []) d.

(** [filter.at<uchar>(p) = v]: a store outside the matrix is undefined. *)
Definition mat_set (m : Mat1) (p : Point) (v : Z) : res Mat1 :=
  if decide (0 <= px p < cols m /\ 0 <= py p < rows m) then
    Ret (<[Z.to_nat (py p) := <[Z.to_nat (px p) := v]> (nth (Z.to_nat (py p)) m [])]> m)
  else Fault.

(** [cv::Mat(size, CV_8U, cv::Scalar(v))]. *)
Definition mat_fill (sz : Size) (v : Z) : Mat1 :=
  replicate (Z.to_nat (s_height sz)) (replicate (Z.to_nat (s_width sz)) v).

(** [cv::copyMakeBorder(src, img, n, n, n, n, cv::BORDER_CONSTANT)] with
    the default border value (all channels 0). *)
Definition copyMakeBorder (src : Mat3) (n : nat) : Mat3 :=
  let w := (length (hd [] src) + 2 * n)%nat in
  replicate n (replicate w black)
  ++ ((fun row => replicate n black ++ row ++ replicate n black) <$> src)
  ++ replicate n (replicate w black).

(** [cv::split]: channel [k] of every pixel. *)
Definition channel (k : Vec3b -> Z) (img : Mat3) : Mat1 := map (map k) img.

(** [a | b] on matrices, element by element. *)
Definition mat_or (a b : Mat1) : Mat1 := zip_with (zip_with Z.lor) a b.

(** ** Luma sampling *)

(** Conversion of a [uchar] to [double] and back.  The conversion back
    truncates toward zero; the weighted sum of three [uchar] values never
    leaves the [uchar] range. *)
Definition double_of_uchar (v : Z) : float := PrimFloat.of_uint63 (Uint63.of_Z v).

Definition uchar_of_double (f : float) : Z :=
  match Prim2SF f with
  | S754_finite s m e =>
      let v := if (0 <=? e)%Z then Z.pos m * 2 ^ e else Z.pos m / 2 ^ (- e) in
      if s then - v else v
  | _ => 0
  end.

(** The expression of line 41, evaluated in binary64 as the source does
    (each product and each sum rounded to nearest, no fused operation). *)
Definition luma (pix : Vec3b) : Z :=
  uchar_of_double
    (0.3 * double_of_uchar (c2 pix) + 0.59 * double_of_uchar (c1 pix)
     + 0.11 * double_of_uchar (c0 pix))%float.

(** [intensity] (lines 36-42). *)
Definition intensity (img : Mat3) (loc : Point) : Z :=
  if decide (px loc < 0 \/ px loc >= cols img \/ py loc < 0 \/ py loc >= rows img)
  then 0
  else luma (mat_at black img loc).

(** ** The contour hierarchy

    One [cv::Vec4i] per contour: [[0]] next sibling, [[1]] previous
    sibling, [[2]] first child, [[3]] parent; a negative value means
    "none". *)

Record Vec4i : Type := mkVec4i { h0 : Z; h1 : Z; h2 : Z; h3 : Z }.

Section Hierarchy.

Context (contours : list Contour) (hier : list Vec4i) (imgSize : Size).

(** The body shared by the two sibling loops of [countChildren]
    (lines 86-91 and 92-97): both start at [hier[child][0]] and both
    advance through [hier[.][0]].  [rec] is the recursive call. *)
Fixpoint siblings_loop (rec : Z -> res Z) (fuel : nat) (next count : Z) : res Z :=
  if decide (next > 0) then
    match fuel with
    | O => OutOfFuel
    | S fuel' =>
        c ← vec_at contours next;
        k ← keep c imgSize;
        let count := if k : bool then int_add count 1 else count in
        sub ← rec next;
        let count := int_add count sub in
        hn ← vec_at hier next;
        siblings_loop rec fuel' (h0 hn) count
    end
  else Ret count.

(** [countChildren] (lines 65-100); [count] is an [int]. *)
Fixpoint countChildren (fuel : nat) (index : Z) : res Z :=
  match fuel with
  | O => OutOfFuel
  | S fuel' =>
      hi ← vec_at hier index;
      if decide (h2 hi < 0) then Ret 0
      else
        let child := h2 hi in
        c ← vec_at contours child;
        k ← keep c imgSize;
        let count := if k : bool then 1 else 0 in
        sub ← countChildren fuel' child;
        let count := int_add count sub in
        hc ← vec_at hier child;
        count ← siblings_loop (countChildren fuel') fuel' (h0 hc) count;
        hc' ← vec_at hier child;
        count ← siblings_loop (countChildren fuel') fuel' (h0 hc') count;
        Ret count
  end.

(** The parent walk of [textBinary] (lines 126-128): it advances while
    the current ancestor has a positive index and is classified keep. *)
Fixpoint parent_walk (fuel : nat) (parent : Z) : res Z :=
  if decide (parent > 0) then
    match fuel with
    | O => OutOfFuel
    | S fuel' =>
        c ← vec_at contours parent;
        k ← keep c imgSize;
        if k : bool then
          hp ← vec_at hier parent;
          parent_walk fuel' (h3 hp)
        else Ret parent
    end
  else Ret parent.

(** The test of lines 131-133 for contour [i]; the result carries the
    values of [parent] and [numChildren] that the source prints. *)
Definition select_one (fuel : nat) (i : Z) : res (bool * Z * Z) :=
  hi ← vec_at hier i;
  parent ← parent_walk fuel (h3 hi);
  numChildren ← countChildren fuel i;
  c ← vec_at contours i;
  k ← keep c imgSize;
  Ret (k && negb (bool_decide (parent > 0) && bool_decide (numChildren <= 2))
         && bool_decide (numChildren <= 2),
       parent, numChildren).

(** The selection loop (lines 120-141), for [i] from [i0] over the
    contours [cs] that remain. *)
Fixpoint select_from (fuel : nat) (i0 : Z) (cs : list Contour) :
    res (list (Contour * Rect)) :=
  match cs with
  | [] => Ret []
  | c :: cs' =>
      let bound := boundingRect c in
      '(sel, _, _) ← select_one fuel i0;
      rest ← select_from fuel (i0 + 1) cs';
      Ret (if sel : bool then (c, bound) :: rest else rest)
  end.

Definition keptRegions (fuel : nat) : res (list (Contour * Rect)) :=
  select_from fuel 0 contours.

End Hierarchy.

(** ** Foreground and background estimates *)

(** [std::nth_element(first, first + n, last)] on a vector of [uchar]:
    the standard fixes the element at position [n] and the partition
    around it, not the order inside the two parts.  An implementation is
    any rearrangement with that guarantee. *)
Definition partitioned_at (n : nat) (l : list Z) : Prop :=
  forall i x v, l !! i = Some x -> l !! n = Some v ->
    ((i <= n)%nat -> x <= v) /\ ((n <= i)%nat -> v <= x).

Class NthElement : Type := {
  nth_element : nat -> list Z -> list Z;
  nth_element_perm : forall n l, nth_element n l ≡ₚ l;
  nth_element_part : forall n l, partitioned_at n (nth_element n l)
}.

(** Lines 150-154: the mean luma over the contour's own points. *)
Definition fgThresh_of (src : Mat3) (contour : Contour) : double :=
  div (foldl (fun acc point => add acc (of_int (intensity src point))) (of_int 0) contour)
      (of_int (Z.of_nat (length contour))).

(** Lines 158-175: the twelve samples around the box, in source order. *)
Definition bgs_of (src : Mat3) (box : Rect) : list Z :=
  let x := r_x box in
  let y := r_y box in
  let w := r_width box in
  let h := r_height box in
  [ intensity src (mkPoint (x - 1) (y - 1));
    intensity src (mkPoint (x - 1) y);
    intensity src (mkPoint x (y - 1));
    intensity src (mkPoint (x + w + 1) (y - 1));
    intensity src (mkPoint (x + w + 1) y);
    intensity src (mkPoint (x + w) (y - 1));
    intensity src (mkPoint (x - 1) (y + h + 1));
    intensity src (mkPoint (x - 1) (y + h));
    intensity src (mkPoint x (y + h + 1));
    intensity src (mkPoint (x + w + 1) (y + h + 1));
    intensity src (mkPoint (x + w) (y + h + 1));
    intensity src (mkPoint (x + w + 1) (y + h)) ].

(** Lines 176-184: the value the source calls the median. *)
Definition bgThresh_of `{NthElement} (bgs : list Z) : res double :=
  let len := Z.of_nat (length bgs) in
  let bgs := nth_element (Z.to_nat (len / 2)) bgs in
  v ← vec_at bgs (len / 2);
  let bgThresh := of_int v in
  if decide (len mod 2 = 0) then
    let bgs := nth_element (Z.to_nat (len / 2 + 1)) bgs in
    v' ← vec_at bgs (len / 2 + 1);
    Ret (div (add bgThresh (of_int v')) (of_int 2))
  else Ret bgThresh.

(** Lines 186-195: the polarity; the pair is [(fg, bg)]. *)
Definition colors_of (fgThresh bgThresh : double) : Z * Z :=
  if geb fgThresh bgThresh then (255, 0) else (0, 255).

(** ** The mask compositor *)

(** The condition of line 200.  Its last conjunct is [img.rows] itself,
    converted to [bool]. *)
Definition fill_guard (img : Mat3) (x y : Z) : bool :=
  bool_decide (x >= 0) && bool_decide (x < cols img)
  && bool_decide (y >= 0) && bool_decide (rows img <> 0).

(** Lines 198-210: the stores the fill loop performs, in order. *)
Definition fill_writes (img : Mat3) (box : Rect) (fgThresh : double) (fg bg : Z) :
    list (Point * Z) :=
  x ← seqZ (r_x box) (r_width box);
  y ← seqZ (r_y box) (r_height box);
  if fill_guard img x y then
    let p := mkPoint x y in
    [(p, if gtb (of_int (intensity img p)) fgThresh then bg else fg)]
  else [].

Fixpoint store_all (filter : Mat1) (writes : list (Point * Z)) : res Mat1 :=
  match writes with
  | [] => Ret filter
  | (p, v) :: writes' =>
      filter' ← mat_set filter p v;
      store_all filter' writes'
  end.

(** The body of the loop over [keptRegions] (lines 145-211). *)
Definition paint_region `{NthElement} (src img : Mat3) (filter : Mat1)
    (p : list Point * Rect) : res Mat1 :=
  let contour := p.1 in
  let box := p.2 in
  let fgThresh := fgThresh_of src contour in
  bgThresh ← bgThresh_of (bgs_of src box);
  let '(fg, bg) := colors_of fgThresh bgThresh in
  store_all filter (fill_writes img box fgThresh fg bg).

Fixpoint paint_regions `{NthElement} (src img : Mat3) (filter : Mat1)
    (kept : list (list Point * Rect)) : res Mat1 :=
  match kept with
  | [] => Ret filter
  | p :: kept' =>
      filter' ← paint_region src img filter p;
      paint_regions src img filter' kept'
  end.

(** Lines 120-213 of [textBinary], from the padded image, the edge
    image's size and the traced contours on. *)
Definition textBinary_from `{NthElement} (fuel : nat) (src img : Mat3) (edgesSize : Size)
    (contours : list (list Point)) (hierarchy : list Vec4i) : res Mat1 :=
  kept ← keptRegions contours hierarchy edgesSize fuel;
  paint_regions src img (mat_fill edgesSize 255) kept.

Section TextBinary.

Context `{NthElement}.

(** OpenCV primitives: [cv::Canny(chan, chan, 200, 250)] on one channel
    and [cv::findContours(edges, contours, hierarchy, CV_RETR_TREE,
    CV_CHAIN_APPROX_NONE)]. *)
Variable Canny : Mat1 -> Mat1.
Variable findContours : Mat1 -> list (list Point) * list Vec4i.

(** [textBinary] (lines 102-214).  The rectangle drawn on [edges] at
    line 135 changes neither its size nor the contours already traced. *)
Definition textBinary (fuel : nat) (src : Mat3) : res Mat1 :=
  let img := copyMakeBorder src 50 in
  let chans0 := Canny (channel c0 img) in
  let chans1 := Canny (channel c1 img) in
  let chans2 := Canny (channel c2 img) in
  let edges := mat_or (mat_or chans0 chans1) chans2 in
  let '(contours, hierarchy) := findContours edges in
  textBinary_from fuel src img (size edges) contours hierarchy.

End TextBinary.

(** ** [plateBounds]: the points handed to [cv::minAreaRect] *)

(** Lines 17-23: the positions of the non-zero pixels of the thresholded
    and eroded image, in row-major order. *)
Definition plateBounds_points (img : Mat1) : list Point :=
  concat (imap (fun y row =>
    omap id (imap (fun x v =>
      if decide (v <> 0) then Some (mkPoint (Z.of_nat x) (Z.of_nat y)) else None) row)) img).

(** Modelled from the spec: [cv::minAreaRect] is an OpenCV primitive;
    "minimum-area-rectangle ... computations on empty ... inputs are
    undefined behavior in the source". *)
Definition minAreaRect_defined (points : list Point) : bool :=
  match points with
  | [] => false
  | _ :: _ => true
  end.

(** Line 26 calls [cv::minAreaRect(points)] unconditionally; drawing the
    four edges afterwards cannot fault. *)
Definition plateBounds_completes (img : Mat1) : bool :=
  minAreaRect_defined (plateBounds_points img).

(** ** Well-formed hierarchies

    What [cv::findContours] guarantees with [CV_RETR_TREE]: the four links
    describe one finite forest. *)

(** Number of parent links between contour [i] and its root. *)
Fixpoint parent_depth (hier : list Vec4i) (fuel : nat) (i : Z) : option nat :=
  match fuel with
  | O => None
  | S fuel' =>
      match vec_at hier i with
      | Ret h => if decide (h3 h < 0) then Some O else S <$> parent_depth hier fuel' (h3 h)
      | _ => None
      end
  end.

(** Number of contours on the next-sibling chain that starts at [next]
    and ends at the first non-positive index. *)
Fixpoint chain_length (hier : list Vec4i) (fuel : nat) (next : Z) : option nat :=
  if decide (next > 0) then
    match fuel with
    | O => None
    | S fuel' =>
        match vec_at hier next with
        | Ret h => S <$> chain_length hier fuel' (h0 h)
        | _ => None
        end
    end
  else Some O.

(** Contour [i] with links [h]: its first child names it as parent, its
    next sibling has the same parent, walking up from it reaches a root
    (it is not its own ancestor), and its sibling chain ends. *)
Definition node_ok (hier : list Vec4i) (i : nat) (h : Vec4i) : bool :=
  (if decide (h2 h < 0) then true
   else match vec_at hier (h2 h) with
        | Ret hc => bool_decide (h3 hc = Z.of_nat i)
        | _ => false
        end)
  && (if decide (h0 h > 0) then
        match vec_at hier (h0 h) with
        | Ret hn => bool_decide (h3 hn = h3 h)
        | _ => false
        end
      else true)
  && bool_decide (is_Some (parent_depth hier (S (length hier)) (Z.of_nat i)))
  && bool_decide (is_Some (chain_length hier (length hier) (h0 h))).

Definition forest (hier : list Vec4i) : bool :=
  forallb (fun ih => node_ok hier ih.1 ih.2) (imap pair hier).

(** *** The same in words

    Following one link from a contour either stops (no such link), leads
    to another contour, or leaves the hierarchy. *)

Inductive step_result : Type :=
  | Stop
  | Next (y : Z)
  | Invalid.

(** From a contour to its parent. *)
Definition parent_step (hier : list Vec4i) (i : Z) : step_result :=
  match vec_at hier i with
  | Ret h => if decide (h3 h < 0) then Stop else Next (h3 h)
  | _ => Invalid
  end.

(** From a sibling link to the one after it; a non-positive link is the
    sentinel. *)
Definition next_step (hier : list Vec4i) (next : Z) : step_result :=
  if decide (next > 0) then
    match vec_at hier next with
    | Ret h => Next (h0 h)
    | _ => Invalid
    end
  else Stop.

(** [reaches step x y]: one or more steps lead from [x] to [y]. *)
Inductive reaches (step : Z -> step_result) : Z -> Z -> Prop :=
  | reaches_one (x y : Z) : step x = Next y -> reaches step x y
  | reaches_more (x y z : Z) : step x = Next y -> reaches step y z -> reaches step x z.

(** [a] is an ancestor of contour [i]. *)
Definition ancestor (hier : list Vec4i) (a i : Z) : Prop :=
  reaches (parent_step hier) i a.

(** Number of steps before the walk from [x] stops. *)
Fixpoint walk_length (step : Z -> step_result) (fuel : nat) (x : Z) : option nat :=
  match step x with
  | Stop => Some O
  | Invalid => None
  | Next y =>
      match fuel with
      | O => None
      | S fuel' => S <$> walk_length step fuel' y
      end
  end.

(** A finite forest: every present link names a contour of the
    hierarchy, a first child names its parent, next siblings share their
    parent, no contour is its own ancestor, and no sibling chain comes
    back to a contour it has left, so every chain ends at a non-positive
    index. *)
Record finite_forest (hier : list Vec4i) : Prop := {
  ff_child : forall i h, vec_at hier i = Ret h -> ~ h2 h < 0 ->
    exists hc, vec_at hier (h2 h) = Ret hc /\ h3 hc = i;
  ff_next : forall i h, vec_at hier i = Ret h -> h0 h > 0 ->
    exists hn, vec_at hier (h0 h) = Ret hn /\ h3 hn = h3 h;
  ff_parent : forall i h, vec_at hier i = Ret h -> ~ h3 h < 0 ->
    exists hp, vec_at hier (h3 h) = Ret hp;
  ff_no_self_ancestor : forall i, ~ ancestor hier i i;
  ff_chain_acyclic : forall s, ~ reaches (next_step hier) s s
}.

(** ** The selection and the count as the specification words them *)

Section Worded.

Context (contours : list (list Point)) (hier : list Vec4i) (imgSize : Size).

(** Contours on a sibling chain followed through [link], an absent link
    being negative. *)
Fixpoint worded_chain (link : Vec4i -> Z) (fuel : nat) (i : Z) : list Z :=
  match fuel with
  | O => []
  | S fuel' =>
      if decide (i < 0) then []
      else match vec_at hier i with
           | Ret h => i :: worded_chain link fuel' (link h)
           | _ => []
           end
  end.

(** All descendants of [i]: the first child and its siblings in both
    directions, each expanded in turn. *)
Fixpoint worded_descendants (fuel : nat) (i : Z) : list Z :=
  match fuel with
  | O => []
  | S fuel' =>
      match vec_at hier i with
      | Ret h =>
          if decide (h2 h < 0) then []
          else
            match vec_at hier (h2 h) with
            | Ret hc =>
                let siblings :=
                  h2 h :: worded_chain h0 fuel' (h0 hc) ++ worded_chain h1 fuel' (h1 hc) in
                s ← siblings; s :: worded_descendants fuel' s
            | _ => []
            end
      | _ => []
      end
  end.

Definition is_kept (i : Z) : bool :=
  match vec_at contours i with
  | Ret c => match keep c imgSize with Ret true => true | _ => false end
  | _ => false
  end.

(** Section 4.4 as worded: the number of kept contours among all
    descendants. *)
Definition worded_count (fuel : nat) (i : Z) : Z :=
  Z.of_nat (length (filter (fun s => is_kept s = true) (worded_descendants fuel i))).

(** Section 4.5 as worded: the nearest kept ancestor, skipping ancestors
    that are not kept. *)
Fixpoint worded_kept_ancestor (fuel : nat) (parent : Z) : option Z :=
  match fuel with
  | O => None
  | S fuel' =>
      if decide (parent < 0) then None
      else if is_kept parent then Some parent
      else match vec_at hier parent with
           | Ret hp => worded_kept_ancestor fuel' (h3 hp)
           | _ => None
           end
  end.

(** Section 4.5 as worded: contour [i] is in the final set. *)
Definition worded_selected (fuel : nat) (i : Z) : bool :=
  is_kept i
  && match countChildren contours hier imgSize fuel i with
     | Ret n => bool_decide (n <= 2)
     | _ => false
     end
  && negb match vec_at hier i with
          | Ret hi =>
              match worded_kept_ancestor fuel (h3 hi) with
              | Some a =>
                  match countChildren contours hier imgSize fuel a with
                  | Ret n => bool_decide (n <= 2)
                  | _ => false
                  end
              | None => false
              end
          | _ => false
          end.

End Worded.

(** Shape plausibility as worded: "ratio = width/height.  Reject if
    ratio < 0.1 or ratio > 10.  Reject unless 15 <= box area <= (image
    area)/5", over exact numbers. *)
Definition worded_hasTextRatio (contour : Contour) (imgSize : Size) : bool :=
  let box := boundingRect contour in
  let w := r_width box in
  let h := r_height box in
  let ratio := (inject_Z w / inject_Z h)%Q in
  Qle_bool (1 # 10) ratio && Qle_bool ratio (inject_Z 10)
  && bool_decide (15 <= w * h)
  && Qle_bool (inject_Z (w * h))
       (inject_Z (s_width imgSize * s_height imgSize) / inject_Z 5).

(** The median as worded: of an even number of samples, the mean of the
    two middle values of the sorted samples. *)
Definition worded_median (bgs : list Z) : double :=
  let sorted := merge_sort Z.le bgs in
  let len := length bgs in
  if Nat.even len then
    div (add (of_int (nth (len / 2 - 1) sorted 0)) (of_int (nth (len / 2) sorted 0)))
        (of_int 2)
  else of_int (nth (len / 2) sorted 0).

(** ** Predicates and helper functions of the statements *)

(** [z] is a value of the type [int]. *)
Definition in_int (z : Z) : Prop := - 2 ^ 31 <= z < 2 ^ 31.

(** Every row of an image has the width of the first one. *)
Definition rectangular {A : Type} (m : Mat A) : Prop :=
  Forall (fun row => length row = length (hd [] m)) m.

(** How many values of [l] are smaller than [x]. *)
Definition count_below (x : Z) (l : list Z) : nat :=
  length (filter (fun y => y < x) l).

(** A matrix of [H] rows, all of width [W]. *)
Definition has_shape {A : Type} (W H : nat) (m : Mat A) : Prop :=
  length m = H /\ Forall (fun row => length row = W) m.

(** One of the two polarity colours. *)
Definition binary (v : Z) : Prop := v = 0 \/ v = 255.

(** A second way to meet the guarantee of [std::nth_element]: sort, then
    leave the part before position [n] in descending order. *)
Definition reversed_prefix (n : nat) (l : list Z) : list Z :=
  reverse (take n (merge_sort Z.le l)) ++ drop n (merge_sort Z.le l).

(** ** Sample inputs *)

(** The closed outline of the square with corners [(x, y)] and
    [(x + side, y + side)], traced clockwise one pixel at a time as
    [CV_CHAIN_APPROX_NONE] does. *)
Definition outline (x y : Z) (side : nat) : list Point :=
  let s := Z.of_nat side in
  ((fun i => mkPoint (x + Z.of_nat i) y) <$> seq 0 side)
  ++ ((fun i => mkPoint (x + s) (y + Z.of_nat i)) <$> seq 0 side)
  ++ ((fun i => mkPoint (x + s - Z.of_nat i) (y + s)) <$> seq 0 side)
  ++ ((fun i => mkPoint x (y + s - Z.of_nat i)) <$> seq 0 side).

(** Two top-level contours; the second encloses two sibling contours. *)
Definition siblings_contours : list (list Point) :=
  [outline 160 160 3; outline 10 10 30; outline 15 15 3; outline 25 15 3].
Definition siblings_hier : list Vec4i :=
  [mkVec4i 1 (-1) (-1) (-1); mkVec4i (-1) 0 2 (-1); mkVec4i 3 (-1) (-1) 1;
   mkVec4i (-1) 2 (-1) 1].

(** Two top-level contours; the second encloses one contour. *)
Definition nested_contours : list (list Point) :=
  [outline 160 160 3; outline 10 10 30; outline 15 15 3].
Definition nested_hier : list Vec4i :=
  [mkVec4i 1 (-1) (-1) (-1); mkVec4i (-1) 0 2 (-1); mkVec4i (-1) (-1) (-1) 1].

(** The same hierarchy with an enclosing contour that the classifier
    rejects: an open stroke whose box is 31 wide and 1 high. *)
Definition stroke_contours : list (list Point) :=
  [outline 160 160 3; (fun i => mkPoint (10 + Z.of_nat i) 10) <$> seq 0 31;
   outline 15 15 3].

Definition sample_size : Size := mkSize 200 200.

(** A source image whose upper half has luma 10 and whose lower half has
    luma 200, and a box in its middle. *)
Definition halves_src : Mat3 :=
  replicate 4 (replicate 8 (mkVec3b 0 17 0))
  ++ replicate 4 (replicate 8 (mkVec3b 200 200 200)).
Definition halves_box : Rect := mkRect 2 2 3 3.

(** A 20 by 20 light image, an edge detector that returns its input, and
    a tracer that reports one contour nested in another. *)
Definition light_src : Mat3 := replicate 20 (replicate 20 (mkVec3b 200 200 200)).
Definition pass_through (chan : Mat1) : Mat1 := chan.
Definition two_traced (edges : Mat1) : list (list Point) * list Vec4i :=
  ([outline 60 60 30; outline 65 65 3],
   [mkVec4i (-1) (-1) 1 (-1); mkVec4i (-1) (-1) (-1) 0]).

(** ** Notions of the further properties *)

(** The contour moved by [(dx, dy)]. *)
Definition shift (dx dy : Z) (contour : list Point) : list Point :=
  (fun p => mkPoint (px p + dx) (py p + dy)) <$> contour.

(** The value stored at column [x] of row [y], if there is one. *)
Definition mat_get {A : Type} (m : Mat A) (x y : Z) : option A :=
  if decide (0 <= x /\ 0 <= y) then
    row ← m !! Z.to_nat y; row !! Z.to_nat x
  else None.

(** [(x, y)] is one of the positions the fill loop ranges over. *)
Definition in_box (box : Rect) (x y : Z) : Prop :=
  r_x box <= x < r_x box + r_width box /\ r_y box <= y < r_y box + r_height box.

(** The two links of a node that lead downwards: next sibling and first
    child. *)
Definition down_links (h : Vec4i) : Z * Z := (h0 h, h2 h).

(** The colour that lines 186-207 give a pixel of luma [v] in a region
    with the thresholds [fgThresh] and [bgThresh]. *)
Definition pixel_colour (fgThresh bgThresh : double) (v : Z) : Z :=
  let '(fg, bg) := colors_of fgThresh bgThresh in
  if gtb (of_int v) fgThresh then bg else fg.

(** The contour mirrored at the diagonal: columns and rows exchanged. *)
Definition mirror (contour : list Point) : list Point :=
  (fun p => mkPoint (py p) (px p)) <$> contour.

(** The twelve positions sampled at lines 158-175, in source order. *)
Definition bgs_points (box : Rect) : list Point :=
  let x := r_x box in
  let y := r_y box in
  let w := r_width box in
  let h := r_height box in
  [ mkPoint (x - 1) (y - 1); mkPoint (x - 1) y; mkPoint x (y - 1);
    mkPoint (x + w + 1) (y - 1); mkPoint (x + w + 1) y; mkPoint (x + w) (y - 1);
    mkPoint (x - 1) (y + h + 1); mkPoint (x - 1) (y + h); mkPoint x (y + h + 1);
    mkPoint (x + w + 1) (y + h + 1); mkPoint (x + w) (y + h + 1);
    mkPoint (x + w + 1) (y + h) ].

(** Results can be compared. *)
#[global] Instance res_eq_dec {A : Type} `{EqDecision A} : EqDecision (res A).
Proof. solve_decision. Defined.

(** * Properties *)

(** ** Vectors and doubles *)

Lemma vec_at_Ret {A : Type} (v : list A) (i : Z) (a : A) :
  vec_at v i = Ret a <-> 0 <= i /\ v !! Z.to_nat i = Some a.
Proof.
  unfold vec_at. destruct (decide (0 <= i)) as [Hi|Hi].
  - destruct (v !! Z.to_nat i) eqn:E; split; intros H; try discriminate.
    + injection H as ->. auto.
    + destruct H as [_ H]. congruence.
    + destruct H as [_ H]. discriminate.
  - split; [discriminate | intros [H _]; lia].
Qed.

Lemma vec_at_in_range {A : Type} (v : list A) (i : Z) :
  0 <= i < Z.of_nat (length v) -> exists a, vec_at v i = Ret a.
Proof.
  intros [H0 H1]. destruct (lookup_lt_is_Some_2 v (Z.to_nat i)) as [a Ha]; [lia|].
  exists a. apply vec_at_Ret. auto.
Qed.

Lemma vec_at_not_OutOfFuel {A : Type} (v : list A) (i : Z) : vec_at v i <> OutOfFuel.
Proof. unfold vec_at. destruct (decide _); [destruct (_ !! _)|]; discriminate. Qed.

(** ** [int] arithmetic *)

Lemma int_wrap_range (z : Z) : - 2 ^ 31 <= int_wrap z < 2 ^ 31.
Proof.
  unfold int_wrap. pose proof (Z.mod_pos_bound (z + 2 ^ 31) (2 ^ 32) ltac:(lia)). lia.
Qed.

Lemma int_wrap_id (z : Z) : - 2 ^ 31 <= z < 2 ^ 31 -> int_wrap z = z.
Proof. intros Hz. unfold int_wrap. rewrite Z.mod_small; lia. Qed.

Lemma int_wrap_add_l (a b : Z) : int_wrap (int_wrap a + b) = int_wrap (a + b).
Proof.
  unfold int_wrap.
  replace ((a + 2 ^ 31) mod 2 ^ 32 - 2 ^ 31 + b + 2 ^ 31)
    with ((a + 2 ^ 31) mod 2 ^ 32 + b) by lia.
  rewrite Zplus_mod_idemp_l. do 2 f_equal. lia.
Qed.

Lemma int_wrap_add_r (a b : Z) : int_wrap (a + int_wrap b) = int_wrap (a + b).
Proof. rewrite (Z.add_comm a), int_wrap_add_l. f_equal. lia. Qed.

Lemma int_abs_sub_sym (a b : Z) : int_abs (int_sub a b) = int_abs (int_sub b a).
Proof.
  unfold int_abs, int_sub. f_equal. unfold int_wrap.
  pose proof (Z.mod_pos_bound (a - b + 2 ^ 31) (2 ^ 32) ltac:(lia)) as Ha.
  pose proof (Z.mod_pos_bound (b - a + 2 ^ 31) (2 ^ 32) ltac:(lia)) as Hb.
  pose proof (Z.div_mod (a - b + 2 ^ 31) (2 ^ 32) ltac:(lia)) as Ea.
  pose proof (Z.div_mod (b - a + 2 ^ 31) (2 ^ 32) ltac:(lia)) as Eb.
  lia.
Qed.

Lemma Qdiv_inject (w h : Z) : 0 < h -> (inject_Z w / inject_Z h == w # Z.to_pos h)%Q.
Proof.
  intros Hh. destruct h as [|h|h]; try lia.
  unfold Qdiv, Qinv, Qmult, Qeq, inject_Z. simpl. lia.
Qed.

Lemma ratio_ge_tenth (w h : Z) : 0 < h -> (1 # 10 <= inject_Z w / inject_Z h)%Q <-> h <= 10 * w.
Proof.
  intros Hh. rewrite (Qdiv_inject w h Hh). unfold Qle. simpl.
  rewrite Z2Pos.id by lia. lia.
Qed.

Lemma ratio_le_ten (w h : Z) : 0 < h -> (inject_Z w / inject_Z h <= inject_Z 10)%Q <-> w <= 10 * h.
Proof.
  intros Hh. rewrite (Qdiv_inject w h Hh). unfold Qle. simpl.
  rewrite Z2Pos.id by lia. lia.
Qed.

Lemma fifth_ge (a b : Z) : (inject_Z a <= inject_Z b / inject_Z 5)%Q <-> 5 * a <= b.
Proof.
  rewrite (Qdiv_inject b 5) by lia. unfold Qle. simpl. lia.
Qed.

Lemma leb_Fin (p q : Q) : leb (Fin p) (Fin q) = true <-> (p <= q)%Q.
Proof. simpl. apply Qle_bool_iff. Qed.

Lemma leb_Fin_false (p q : Q) : leb (Fin p) (Fin q) = false <-> (q < p)%Q.
Proof.
  simpl. split; intros H.
  - apply Qnot_le_lt. intros Hle. apply Qle_bool_iff in Hle. congruence.
  - destruct (Qle_bool p q) eqn:E; [|reflexivity].
    apply Qle_bool_iff in E. exfalso. eapply Qlt_not_le; eauto.
Qed.

(** ** The bounding rectangle *)

Lemma foldr_min_le (a : Z) (l : list Z) : foldr Z.min a l <= a.
Proof. induction l as [|b l IH]; simpl; lia. Qed.

Lemma foldr_max_ge (a : Z) (l : list Z) : a <= foldr Z.max a l.
Proof. induction l as [|b l IH]; simpl; lia. Qed.

Lemma foldr_min_elem (a : Z) (l : list Z) (b : Z) : b ∈ l -> foldr Z.min a l <= b.
Proof.
  induction l as [|c l IH]; intros Hb; [by apply elem_of_nil in Hb|].
  apply elem_of_cons in Hb as [->|Hb]; simpl; [lia|]. specialize (IH Hb). lia.
Qed.

Lemma foldr_max_elem (a : Z) (l : list Z) (b : Z) : b ∈ l -> b <= foldr Z.max a l.
Proof.
  induction l as [|c l IH]; intros Hb; [by apply elem_of_nil in Hb|].
  apply elem_of_cons in Hb as [->|Hb]; simpl; [lia|]. specialize (IH Hb). lia.
Qed.

Lemma boundingRect_nonneg (contour : list Point) :
  0 <= r_width (boundingRect contour) /\ 0 <= r_height (boundingRect contour).
Proof.
  destruct contour as [|p ps]; simpl; [lia|].
  pose proof (foldr_min_le (px p) (px <$> ps)).
  pose proof (foldr_max_ge (px p) (px <$> ps)).
  pose proof (foldr_min_le (py p) (py <$> ps)).
  pose proof (foldr_max_ge (py p) (py <$> ps)).
  lia.
Qed.

Lemma boundingRect_nil : boundingRect [] = mkRect 0 0 0 0.
Proof. reflexivity. Qed.

Lemma boundingRect_singleton (p : Point) : boundingRect [p] = mkRect (px p) (py p) 1 1.
Proof. unfold boundingRect. simpl. f_equal; lia. Qed.

(** Every point of a contour lies inside its bounding rectangle. *)
Lemma boundingRect_contains (contour : list Point) (q : Point) :
  q ∈ contour ->
  let box := boundingRect contour in
  r_x box <= px q < r_x box + r_width box /\ r_y box <= py q < r_y box + r_height box.
Proof.
  destruct contour as [|p ps]; intros Hq; [by apply elem_of_nil in Hq|].
  simpl.
  pose proof (foldr_min_le (px p) (px <$> ps)).
  pose proof (foldr_max_ge (px p) (px <$> ps)).
  pose proof (foldr_min_le (py p) (py <$> ps)).
  pose proof (foldr_max_ge (py p) (py <$> ps)).
  apply elem_of_cons in Hq as [->|Hq]; [lia|].
  pose proof (foldr_min_elem (px p) (px <$> ps) (px q) (list_elem_of_fmap_2 px _ _ Hq)).
  pose proof (foldr_max_elem (px p) (px <$> ps) (px q) (list_elem_of_fmap_2 px _ _ Hq)).
  pose proof (foldr_min_elem (py p) (py <$> ps) (py q) (list_elem_of_fmap_2 py _ _ Hq)).
  pose proof (foldr_max_elem (py p) (py <$> ps) (py q) (list_elem_of_fmap_2 py _ _ Hq)).
  lia.
Qed.

(** ** Shape plausibility *)

(** [hasTextRatio] written over integers. *)
Lemma hasTextRatio_int (contour : list Point) (imgSize : Size) :
  let w := r_width (boundingRect contour) in
  let h := r_height (boundingRect contour) in
  hasTextRatio contour imgSize = true <->
  h <= 10 * w /\ w <= 10 * h /\ 15 <= int_mul w h
  /\ 5 * int_mul w h <= int_mul (s_width imgSize) (s_height imgSize).
Proof.
  intros w h. pose proof (boundingRect_nonneg contour) as [Hw Hh].
  fold w in Hw. fold h in Hh. unfold hasTextRatio. fold w. fold h.
  set (area := int_mul (s_width imgSize) (s_height imgSize)).
  assert (Harea : (geb (of_int (int_mul w h)) (of_int 15)
                   && leb (of_int (int_mul w h)) (div (of_int area) (of_int 5))) = true
                  <-> 15 <= int_mul w h /\ 5 * int_mul w h <= area).
  { unfold geb, of_int, div. change (Qis_zero (inject_Z 5)) with false. cbv iota.
    rewrite andb_true_iff, !leb_Fin, Qred_correct, fifth_ge.
    rewrite <- Zle_Qle. tauto. }
  destruct (decide (h = 0)) as [Hh0|Hh0].
  - (* an empty box: the quotient is a NaN or an infinity *)
    rewrite Hh0 in *.
    destruct (decide (w = 0)) as [Hw0|Hw0].
    + rewrite Hw0 in *.
      change (div (of_int 0) (of_int 0)) with NaN.
      change (ltb NaN (Fin (1 # 10)) || gtb NaN (of_int 10)) with false. cbv iota.
      rewrite Harea. change (int_mul 0 0) with 0. lia.
    + assert (div (of_int w) (of_int 0) = Inf false) as ->.
      { unfold div, of_int. change (Qis_zero (inject_Z 0)) with true. cbv iota.
        unfold Qis_zero, Qsign_neg. simpl.
        destruct (Z.eqb_spec w 0); [lia|]. destruct (Z.ltb_spec w 0); [lia|]. done. }
      change (ltb (Inf false) (Fin (1 # 10)) || gtb (Inf false) (of_int 10)) with true.
      cbv iota. split; [intros ?; discriminate | lia].
  - assert (0 < h) as Hpos by lia.
    assert (div (of_int w) (of_int h) = Fin (Qred (inject_Z w / inject_Z h))) as ->.
    { unfold div, of_int. unfold Qis_zero at 1. simpl Qnum.
      destruct (Z.eqb_spec h 0); [lia|]. done. }
    destruct (ltb (Fin (Qred (inject_Z w / inject_Z h))) (Fin (1 # 10))) eqn:E1.
    + cbn [orb]. cbv iota. split; [intros ?; discriminate|]. intros [H1 _].
      exfalso. unfold ltb in E1. apply negb_true_iff, leb_Fin_false in E1.
      rewrite Qred_correct in E1. apply (proj2 (ratio_ge_tenth w h Hpos)) in H1.
      eapply Qlt_not_le; eauto.
    + unfold ltb in E1. apply negb_false_iff, leb_Fin in E1.
      rewrite Qred_correct in E1. apply (proj1 (ratio_ge_tenth w h Hpos)) in E1.
      cbn [orb].
      destruct (gtb (Fin (Qred (inject_Z w / inject_Z h))) (of_int 10)) eqn:E2.
      * cbv iota. split; [intros ?; discriminate|]. intros (_ & H2 & _). exfalso.
        unfold gtb, ltb, of_int in E2. apply negb_true_iff, leb_Fin_false in E2.
        rewrite Qred_correct in E2. apply (proj2 (ratio_le_ten w h Hpos)) in H2.
        eapply Qlt_not_le; eauto.
      * unfold gtb, ltb, of_int in E2. apply negb_false_iff, leb_Fin in E2.
        rewrite Qred_correct in E2. apply (proj1 (ratio_le_ten w h Hpos)) in E2.
        cbv iota. rewrite Harea. clear Harea. intuition lia.
Qed.

(** C6, as the code has it.  [hasTextRatio] accepts exactly when the
    bounding box's width/height ratio lies in the closed interval
    [0.1, 10] and its area lies in the closed interval
    [15, image area / 5], provided the box area and the image area are
    values of [int], the type in which lines 51-52 multiply; it then
    agrees with the test as worded.  A 1x200 box and a box of area 10 are
    rejected for every image size, and the lower area bound is inclusive:
    a box of area exactly 15 is accepted whenever its ratio is in range
    and the image area is an [int] of at least 75. *)
Theorem hasTextRatio_bounds_exact (contour : list Point) (imgSize : Size) :
  let w := r_width (boundingRect contour) in
  let h := r_height (boundingRect contour) in
  let imgArea := s_width imgSize * s_height imgSize in
  let ratio := (inject_Z w / inject_Z h)%Q in
  (in_int (w * h) -> in_int imgArea ->
   (hasTextRatio contour imgSize = true <->
      ((1 # 10 <= ratio)%Q /\ (ratio <= inject_Z 10)%Q)
      /\ (15 <= w * h /\ (inject_Z (w * h) <= inject_Z imgArea / inject_Z 5)%Q))
   /\ hasTextRatio contour imgSize = worded_hasTextRatio contour imgSize)
  /\ (w = 1 -> h = 200 -> hasTextRatio contour imgSize = false)
  /\ (w * h = 10 -> hasTextRatio contour imgSize = false)
  /\ (w * h = 15 -> (1 # 10 <= ratio)%Q -> (ratio <= inject_Z 10)%Q -> 75 <= imgArea ->
      in_int imgArea -> hasTextRatio contour imgSize = true).
Proof.
  intros w h imgArea ratio.
  pose proof (hasTextRatio_int contour imgSize) as Hint. cbv zeta in Hint.
  fold w h in Hint. unfold int_mul in Hint. fold imgArea in Hint.
  pose proof (boundingRect_nonneg contour) as [Hw Hh]. fold w in Hw. fold h in Hh.
  assert (Hiff : in_int (w * h) -> in_int imgArea ->
     (hasTextRatio contour imgSize = true <->
     ((1 # 10 <= ratio)%Q /\ (ratio <= inject_Z 10)%Q)
     /\ (15 <= w * h /\ (inject_Z (w * h) <= inject_Z imgArea / inject_Z 5)%Q))).
  { intros Hbox Himg. rewrite Hint, !int_wrap_id by assumption. rewrite fifth_ge.
    destruct (decide (h = 0)) as [Hh0|Hh0].
    - split; [intros (_ & _ & H & _); rewrite Hh0 in H; lia|].
      intros (_ & H & _). rewrite Hh0 in H. lia.
    - assert (0 < h) as Hpos by lia. unfold ratio.
      rewrite (ratio_ge_tenth w h Hpos), (ratio_le_ten w h Hpos). tauto. }
  split; [|split; [|split]].
  - intros Hbox Himg. split; [by apply Hiff|].
    apply eq_true_iff_eq. rewrite (Hiff Hbox Himg). unfold worded_hasTextRatio.
    fold w h imgArea ratio.
    rewrite !andb_true_iff, bool_decide_eq_true, !Qle_bool_iff. tauto.
  - intros Hw1 Hh200. apply not_true_is_false. intros E. apply Hint in E. lia.
  - intros Ha. apply not_true_is_false. intros E. apply Hint in E.
    rewrite Ha in E. change (int_wrap 10) with 10 in E. lia.
  - intros Ha H1 H2 Himg Hrange. apply Hiff; [rewrite Ha; by compute | exact Hrange|].
    rewrite fifth_ge. repeat split; auto; lia.
Qed.

Lemma hasTextRatio_bounds_exact_witness :
  hasTextRatio [mkPoint 0 0; mkPoint 0 199] (mkSize 300 300) = false
  /\ hasTextRatio [mkPoint 0 0; mkPoint 1 4] (mkSize 300 300) = false
  /\ hasTextRatio [mkPoint 0 0; mkPoint 2 4] (mkSize 300 300) = true
  /\ hasTextRatio (outline 10 10 30) (mkSize 300 300)
     = worded_hasTextRatio (outline 10 10 30) (mkSize 300 300).
Proof.
  split; [|split; [|split]].
  - destruct (hasTextRatio_bounds_exact [mkPoint 0 0; mkPoint 0 199] (mkSize 300 300))
      as (_ & H & _). apply H; reflexivity.
  - destruct (hasTextRatio_bounds_exact [mkPoint 0 0; mkPoint 1 4] (mkSize 300 300))
      as (_ & _ & H & _). apply H; reflexivity.
  - destruct (hasTextRatio_bounds_exact [mkPoint 0 0; mkPoint 2 4] (mkSize 300 300))
      as (_ & _ & _ & H).
    apply H; [reflexivity | vm_compute; congruence.. | split; vm_compute; congruence].
  - destruct (hasTextRatio_bounds_exact (outline 10 10 30) (mkSize 300 300))
      as (H & _).
    apply H; split; vm_compute; congruence.
Defined.

(** C6 as stated fails where an area leaves the [int] range.  In an image
    of 50000 by 50000 pixels the image area wraps to a negative [int], and
    the 31 by 31 box of a character outline, of ratio 1 and area 961, is
    rejected; in an image of 70000 by 70000 pixels a box of 65536 by 65537
    pixels, far above a fifth of the image, is accepted because its area
    wraps to 65536. *)
Lemma hasTextRatio_wraps_large_areas :
  hasTextRatio (outline 10 10 30) (mkSize 50000 50000) = false
  /\ worded_hasTextRatio (outline 10 10 30) (mkSize 50000 50000) = true
  /\ hasTextRatio [mkPoint 0 0; mkPoint 65535 65536] (mkSize 70000 70000) = true
  /\ worded_hasTextRatio [mkPoint 0 0; mkPoint 65535 65536] (mkSize 70000 70000) = false.
Proof. repeat split; by vm_compute. Qed.

(** ** The intensity sampler *)

Lemma mat_at_lookup {A : Type} (d : A) (m : Mat A) (loc : Point) :
  rectangular m -> 0 <= px loc < cols m -> 0 <= py loc < rows m ->
  exists row, m !! Z.to_nat (py loc) = Some row
              /\ row !! Z.to_nat (px loc) = Some (mat_at d m loc).
Proof.
  unfold rectangular, cols, rows, mat_at. intros Hrect Hx Hy.
  destruct (lookup_lt_is_Some_2 m (Z.to_nat (py loc))) as [row Hrow]; [lia|].
  exists row. split; [exact Hrow|].
  rewrite (nth_lookup_Some _ _ _ _ Hrow).
  assert (length row = length (hd [] m)) as Hlen.
  { rewrite Forall_forall in Hrect. apply Hrect. eapply list_elem_of_lookup_2; eauto. }
  destruct (lookup_lt_is_Some_2 row (Z.to_nat (px loc))) as [v Hv]; [lia|].
  rewrite (nth_lookup_Some _ _ _ _ Hv). exact Hv.
Qed.

(** C7.  For every image and every point, the sampler returns 0 when the
    point is out of bounds ([x < 0], [x >= width], [y < 0] or
    [y >= height]); it is a total function, so nothing is raised.  For an
    in-bounds point it returns the luma [0.3 R + 0.59 G + 0.11 B] of the
    pixel stored there (channel 2 is R, channel 0 is B), computed in
    [double] and converted to [uchar]. *)
Theorem intensity_sampler (img : Mat3) (loc : Point) :
  ((px loc < 0 \/ px loc >= cols img \/ py loc < 0 \/ py loc >= rows img) ->
   intensity img loc = 0)
  /\ (0 <= px loc < cols img /\ 0 <= py loc < rows img ->
      intensity img loc = luma (mat_at black img loc)
      /\ (rectangular img ->
          exists row pix,
            img !! Z.to_nat (py loc) = Some row /\ row !! Z.to_nat (px loc) = Some pix
            /\ intensity img loc
               = uchar_of_double
                   (0.3 * double_of_uchar (c2 pix) + 0.59 * double_of_uchar (c1 pix)
                    + 0.11 * double_of_uchar (c0 pix))%float)).
Proof.
  unfold intensity. split.
  - intros Hout. destruct (decide _) as [_|Hin]; [reflexivity|]. tauto.
  - intros [Hx Hy]. destruct (decide _) as [Hout|_]; [lia|].
    split; [reflexivity|]. intros Hrect.
    destruct (mat_at_lookup black img loc Hrect Hx Hy) as (row & Hrow & Hpix).
    exists row, (mat_at black img loc). auto.
Qed.

Lemma intensity_sampler_witness :
  intensity [[mkVec3b 10 10 10; mkVec3b 255 255 255]] (mkPoint 2 0) = 0
  /\ intensity [[mkVec3b 10 10 10; mkVec3b 255 255 255]] (mkPoint 0 (-1)) = 0
  /\ intensity [[mkVec3b 10 10 10; mkVec3b 255 255 255]] (mkPoint 1 0) = 255
  /\ intensity [[mkVec3b 10 10 10; mkVec3b 255 255 255]] (mkPoint 0 0) = 9.
Proof.
  set (img := [[mkVec3b 10 10 10; mkVec3b 255 255 255]]).
  split; [|split; [|split]].
  - apply (proj1 (intensity_sampler img (mkPoint 2 0))). vm_compute. right. left. congruence.
  - apply (proj1 (intensity_sampler img (mkPoint 0 (-1)))). vm_compute. tauto.
  - destruct (proj2 (intensity_sampler img (mkPoint 1 0))) as [H _];
      [vm_compute; intuition congruence|].
    rewrite H. vm_compute. reflexivity.
  - destruct (proj2 (intensity_sampler img (mkPoint 0 0))) as [H _];
      [vm_compute; intuition congruence|].
    rewrite H. vm_compute. reflexivity.
Defined.

(** ** The classifier never faults *)

Lemma bind_Ret {A B : Type} (m : res A) (f : A -> res B) (b : B) :
  m ≫= f = Ret b <-> exists a, m = Ret a /\ f a = Ret b.
Proof.
  destruct m as [a| |]; simpl; split.
  - intros H. exists a. auto.
  - intros (a' & Ha & H). injection Ha as ->. exact H.
  - discriminate.
  - intros (a' & Ha & _). discriminate.
  - discriminate.
  - intros (a' & Ha & _). discriminate.
Qed.

Lemma isConnected_nonempty (p : Point) (ps : list Point) :
  exists b, isConnected (p :: ps) = Ret b.
Proof.
  unfold isConnected.
  destruct (vec_at_in_range (p :: ps) 0) as [a Ha]; [simpl; lia|].
  destruct (vec_at_in_range (p :: ps) (Z.of_nat (length (p :: ps)) - 1)) as [b Hb];
    [simpl; lia|].
  rewrite Ha, Hb. simpl. eauto.
Qed.

Lemma isConnected_nil : isConnected [] = Fault.
Proof. reflexivity. Qed.

Lemma hasTextRatio_nonempty (contour : list Point) (imgSize : Size) :
  hasTextRatio contour imgSize = true -> contour <> [].
Proof.
  intros H ->. apply hasTextRatio_int in H. simpl in H.
  change (int_mul 0 0) with 0 in H. lia.
Qed.

(** [keep] returns on every contour: [isConnected] is reached only with a
    bounding box of area at least 15, hence with a non-empty contour. *)
Lemma keep_total (contour : list Point) (imgSize : Size) :
  exists b, keep contour imgSize = Ret b.
Proof.
  unfold keep. destruct (hasTextRatio contour imgSize) eqn:E; [|by exists false].
  apply hasTextRatio_nonempty in E. destruct contour as [|p ps]; [done|].
  apply isConnected_nonempty.
Qed.

Lemma keep_true_nonempty (contour : list Point) (imgSize : Size) :
  keep contour imgSize = Ret true -> contour <> [].
Proof.
  unfold keep. destruct (hasTextRatio contour imgSize) eqn:E; [|discriminate].
  intros _. eapply hasTextRatio_nonempty; eauto.
Qed.

Lemma keep_nil (imgSize : Size) : keep [] imgSize = Ret false.
Proof. reflexivity. Qed.

Lemma keep_singleton (p : Point) (imgSize : Size) : keep [p] imgSize = Ret false.
Proof.
  unfold keep. destruct (hasTextRatio [p] imgSize) eqn:E; [|reflexivity].
  apply hasTextRatio_int in E. rewrite boundingRect_singleton in E. simpl in E.
  change (int_mul 1 1) with 1 in E. lia.
Qed.

(** ** Walks along links *)

Section Walks.

Context (step : Z -> step_result).

Lemma walk_length_mono (fuel : nat) :
  forall (fuel' : nat) (x : Z) (k : nat),
    walk_length step fuel x = Some k -> (fuel <= fuel')%nat ->
    walk_length step fuel' x = Some k.
Proof.
  induction fuel as [|fuel IH]; intros fuel' x k Hk Hle.
  - destruct fuel'; simpl in *; destruct (step x); done.
  - destruct fuel' as [|fuel']; [lia|]. simpl in *.
    destruct (step x) as [|y|]; try done.
    destruct (walk_length step fuel y) as [k'|] eqn:E; [|done].
    rewrite (IH fuel' y k' E) by lia. exact Hk.
Qed.

Lemma walk_length_step (fuel : nat) (x y : Z) (k : nat) :
  step x = Next y -> walk_length step fuel x = Some k ->
  exists k', k = S k' /\ walk_length step fuel y = Some k'.
Proof.
  intros Hxy Hk. destruct fuel as [|fuel]; simpl in Hk; rewrite Hxy in Hk; [done|].
  destruct (walk_length step fuel y) as [k'|] eqn:E; [|done].
  injection Hk as <-. exists k'. split; [reflexivity|].
  eapply walk_length_mono; eauto.
Qed.

(** Every step brings the end of a halting walk closer. *)
Lemma walk_length_reaches (fuel : nat) (x y : Z) :
  reaches step x y ->
  forall k, walk_length step fuel x = Some k ->
  exists k', (k' < k)%nat /\ walk_length step fuel y = Some k'.
Proof.
  induction 1 as [x y Hxy|x y z Hxy _ IH]; intros k Hk.
  - destruct (walk_length_step fuel x y k Hxy Hk) as (k' & -> & Hk'). eauto.
  - destruct (walk_length_step fuel x y k Hxy Hk) as (k' & -> & Hk').
    destruct (IH k' Hk') as (k'' & Hlt & Hk''). exists k''. split; [lia|done].
Qed.

Lemma walk_length_no_cycle (fuel : nat) (x : Z) (k : nat) :
  walk_length step fuel x = Some k -> ~ reaches step x x.
Proof.
  intros Hk Hcycle. destruct (walk_length_reaches fuel x x Hcycle k Hk) as (k' & Hlt & Hk').
  rewrite Hk in Hk'. injection Hk' as ->. lia.
Qed.

Lemma reaches_snoc (x y z : Z) : reaches step x y -> step y = Next z -> reaches step x z.
Proof.
  induction 1 as [x y Hxy|x y w Hxy _ IH]; intros Hz.
  - eapply reaches_more; [exact Hxy|]. by apply reaches_one.
  - eapply reaches_more; [exact Hxy|]. by apply IH.
Qed.

(** [n] distinct indices below [n] are all of them. *)
Lemma all_indices_visited (n : nat) (visited : list Z) (x : Z) :
  NoDup visited -> (forall v, v ∈ visited -> 0 <= v < Z.of_nat n) ->
  length visited = n -> 0 <= x < Z.of_nat n -> x ∈ visited.
Proof.
  intros Hnd Hin Hlen Hx.
  assert (visited ≡ₚ seqZ 0 (Z.of_nat n)) as ->.
  { apply submseteq_length_Permutation.
    - apply NoDup_submseteq; [exact Hnd|]. intros v Hv. apply elem_of_seqZ.
      specialize (Hin v Hv). lia.
    - rewrite length_seqZ. lia. }
  apply elem_of_seqZ. lia.
Qed.

Section Acyclic.

Context (n : nat).
Hypothesis step_range : forall x y, step x = Next y -> 0 <= x < Z.of_nat n.
Hypothesis step_valid : forall x y, step x = Next y -> step y <> Invalid.
Hypothesis acyclic : forall x, ~ reaches step x x.

Lemma walk_length_visited (fuel : nat) :
  forall (visited : list Z) (x : Z),
    NoDup visited ->
    (forall v, v ∈ visited -> reaches step v x /\ 0 <= v < Z.of_nat n) ->
    step x <> Invalid -> (length visited + fuel = n)%nat ->
    is_Some (walk_length step fuel x).
Proof.
  induction fuel as [|fuel IH]; intros visited x Hnd Hvis Hx Hlen.
  - simpl. destruct (step x) as [|y|] eqn:Hxy; [eauto|..|done].
    exfalso. apply (acyclic x).
    assert (x ∈ visited) as Hin.
    { apply (all_indices_visited n); eauto; [|lia].
      intros v Hv. by apply Hvis. }
    by apply Hvis.
  - simpl. destruct (step x) as [|y|] eqn:Hxy; [eauto|..|done].
    destruct (IH (x :: visited) y) as [k Hk].
    + apply NoDup_cons. split; [|exact Hnd]. intros Hin.
      apply (acyclic x). by apply Hvis.
    + intros v [->|Hv]%elem_of_cons.
      * split; [by apply reaches_one | eauto].
      * destruct (Hvis v Hv) as [Hr Hv']. split; [|exact Hv'].
        eapply reaches_snoc; eauto.
    + eauto.
    + simpl. lia.
    + rewrite Hk. eauto.
Qed.

(** Without a cycle, a walk over [n] indices stops within [n] steps. *)
Lemma walk_length_acyclic (x : Z) :
  step x <> Invalid -> is_Some (walk_length step n x).
Proof.
  intros Hx. apply (walk_length_visited n [] x); auto.
  - constructor.
  - intros v Hv. by apply elem_of_nil in Hv.
Qed.

End Acyclic.

End Walks.

Lemma parent_depth_walk (hier : list Vec4i) (fuel : nat) :
  forall i, parent_depth hier (S fuel) i = walk_length (parent_step hier) fuel i.
Proof.
  induction fuel as [|fuel IH]; intros i.
  - simpl. unfold parent_step. destruct (vec_at hier i) as [h| |]; try done.
    destruct (decide (h3 h < 0)); done.
  - change (parent_depth hier (S (S fuel)) i)
      with (match vec_at hier i with
            | Ret h => if decide (h3 h < 0) then Some O
                       else S <$> parent_depth hier (S fuel) (h3 h)
            | _ => None
            end).
    change (walk_length (parent_step hier) (S fuel) i)
      with (match parent_step hier i with
            | Stop => Some O
            | Invalid => None
            | Next y => S <$> walk_length (parent_step hier) fuel y
            end).
    unfold parent_step at 1. destruct (vec_at hier i) as [h| |]; try done.
    destruct (decide (h3 h < 0)); [done|]. by rewrite IH.
Qed.

Lemma chain_length_walk (hier : list Vec4i) (fuel : nat) :
  forall next, chain_length hier fuel next = walk_length (next_step hier) fuel next.
Proof.
  induction fuel as [|fuel IH]; intros next; simpl; unfold next_step at 1;
    destruct (decide (next > 0)); try done;
    destruct (vec_at hier next) as [h| |]; try done.
  by rewrite IH.
Qed.

(** ** Termination of [countChildren] on a forest *)

Section Termination.

Context (hier : list Vec4i).

Lemma parent_depth_lt (fuel : nat) (i : Z) (d : nat) :
  parent_depth hier fuel i = Some d -> (d < fuel)%nat.
Proof.
  revert i d. induction fuel as [|fuel IH]; intros i d; simpl; [discriminate|].
  destruct (vec_at hier i) as [h| |]; try discriminate.
  destruct (decide (h3 h < 0)).
  - intros [= <-]. lia.
  - destruct (parent_depth hier fuel (h3 h)) as [d'|] eqn:E; simpl; [|discriminate].
    intros [= <-]. apply IH in E. lia.
Qed.

Lemma parent_depth_mono (fuel fuel' : nat) (i : Z) (d : nat) :
  parent_depth hier fuel i = Some d -> (fuel <= fuel')%nat ->
  parent_depth hier fuel' i = Some d.
Proof.
  revert fuel' i d. induction fuel as [|fuel IH]; intros fuel' i d; simpl; [discriminate|].
  intros H Hle. destruct fuel' as [|fuel']; [lia|]. simpl.
  destruct (vec_at hier i) as [h| |]; try discriminate.
  destruct (decide (h3 h < 0)); [exact H|].
  destruct (parent_depth hier fuel (h3 h)) as [d'|] eqn:E; simpl in H; [|discriminate].
  rewrite (IH fuel' _ _ E) by lia. exact H.
Qed.

(** A contour whose parent link is [i] lies one level below [i]. *)
Lemma parent_depth_below (fuel : nat) (c i : Z) (hc : Vec4i) (d dc : nat) :
  vec_at hier c = Ret hc -> h3 hc = i -> 0 <= i ->
  parent_depth hier fuel i = Some d ->
  parent_depth hier fuel c = Some dc ->
  dc = S d.
Proof.
  intros Hc Hp Hi Hd Hdc. destruct fuel as [|n]; [discriminate|].
  simpl in Hdc. rewrite Hc in Hdc. destruct (decide (h3 hc < 0)); [lia|].
  rewrite Hp in Hdc.
  destruct (parent_depth hier n i) as [d'|] eqn:E; simpl in Hdc; [|discriminate].
  injection Hdc as <-. f_equal.
  apply (parent_depth_mono n (S n)) in E; [|lia]. congruence.
Qed.

Lemma chain_length_le (fuel : nat) (next : Z) (k : nat) :
  chain_length hier fuel next = Some k -> (k <= fuel)%nat.
Proof.
  revert next k. induction fuel as [|fuel IH]; intros next k; simpl.
  - destruct (decide (next > 0)); [discriminate|]. intros [= <-]. lia.
  - destruct (decide (next > 0)); [|intros [= <-]; lia].
    destruct (vec_at hier next) as [h| |]; try discriminate.
    destruct (chain_length hier fuel (h0 h)) as [k'|] eqn:E; simpl; [|discriminate].
    intros [= <-]. apply IH in E. lia.
Qed.

Hypothesis is_forest : forest hier = true.

Lemma forest_node (i : Z) (h : Vec4i) :
  vec_at hier i = Ret h -> node_ok hier (Z.to_nat i) h = true.
Proof.
  intros [Hi Hh]%vec_at_Ret. unfold forest in is_forest.
  rewrite forallb_forall in is_forest.
  apply (is_forest (Z.to_nat i, h)).
  apply list_elem_of_In, elem_of_lookup_imap. eauto.
Qed.

Lemma node_child (i : Z) (h : Vec4i) :
  vec_at hier i = Ret h -> ~ h2 h < 0 ->
  exists hc, vec_at hier (h2 h) = Ret hc /\ h3 hc = i.
Proof.
  intros Hi Hc. pose proof (forest_node i h Hi) as Hok.
  apply vec_at_Ret in Hi as [Hi _].
  unfold node_ok in Hok. rewrite !andb_true_iff in Hok. destruct Hok as [[[Hok _] _] _].
  destruct (decide (h2 h < 0)); [done|].
  destruct (vec_at hier (h2 h)) as [hc| |]; try discriminate.
  apply bool_decide_eq_true in Hok. exists hc. split; [reflexivity|]. lia.
Qed.

Lemma node_next (i : Z) (h : Vec4i) :
  vec_at hier i = Ret h -> h0 h > 0 ->
  exists hn, vec_at hier (h0 h) = Ret hn /\ h3 hn = h3 h.
Proof.
  intros Hi Hn. pose proof (forest_node i h Hi) as Hok.
  unfold node_ok in Hok. rewrite !andb_true_iff in Hok. destruct Hok as [[[_ Hok] _] _].
  destruct (decide (h0 h > 0)); [|done].
  destruct (vec_at hier (h0 h)) as [hn| |]; try discriminate.
  apply bool_decide_eq_true in Hok. eauto.
Qed.

Lemma node_depth (i : Z) (h : Vec4i) :
  vec_at hier i = Ret h -> exists d, parent_depth hier (S (length hier)) i = Some d.
Proof.
  intros Hi. pose proof (forest_node i h Hi) as Hok.
  apply vec_at_Ret in Hi as [Hi _].
  unfold node_ok in Hok. rewrite !andb_true_iff in Hok. destruct Hok as [[_ Hok] _].
  apply bool_decide_eq_true in Hok. rewrite Z2Nat.id in Hok by lia.
  destruct Hok as [d Hd]. eauto.
Qed.

Lemma node_chain (i : Z) (h : Vec4i) :
  vec_at hier i = Ret h -> exists k, chain_length hier (length hier) (h0 h) = Some k.
Proof.
  intros Hi. pose proof (forest_node i h Hi) as Hok.
  unfold node_ok in Hok. rewrite !andb_true_iff in Hok. destruct Hok as [_ Hok].
  apply bool_decide_eq_true in Hok. destruct Hok as [k Hk]. eauto.
Qed.

Lemma reaches_first (step : Z -> step_result) (x y : Z) :
  reaches step x y -> exists z, step x = Next z.
Proof. destruct 1; eauto. Qed.

(** The check [forest] implies the forest in words. *)
Lemma forest_finite_forest : finite_forest hier.
Proof.
  split.
  - exact node_child.
  - exact node_next.
  - intros i h Hi Hp. destruct (node_depth i h Hi) as [d Hd].
    simpl in Hd. rewrite Hi in Hd. destruct (decide (h3 h < 0)); [done|].
    destruct (length hier) as [|len]; [done|]. simpl in Hd.
    destruct (vec_at hier (h3 h)) as [hp| |]; [eauto|done..].
  - intros i Hcycle. destruct (reaches_first _ _ _ Hcycle) as [y Hy].
    unfold parent_step in Hy. destruct (vec_at hier i) as [h| |] eqn:Hi; try done.
    destruct (node_depth i h Hi) as [d Hd]. rewrite parent_depth_walk in Hd.
    eapply walk_length_no_cycle; eauto.
  - intros s Hcycle. destruct (reaches_first _ _ _ Hcycle) as [y Hy].
    pose proof Hy as Hy'. unfold next_step in Hy'.
    destruct (decide (s > 0)); [|done].
    destruct (vec_at hier s) as [h| |] eqn:Hs; try done. injection Hy' as <-.
    destruct (node_chain s h Hs) as [k Hk]. rewrite chain_length_walk in Hk.
    apply (walk_length_no_cycle (next_step hier) (S (length hier)) s (S k)); [|exact Hcycle].
    simpl. rewrite Hy, Hk. reflexivity.
Qed.

Context (contours : list (list Point)) (imgSize : Size).
Hypothesis same_length : length contours = length hier.

(** A sibling loop returns when the chain it follows ends within its
    fuel and the recursive call returns on every contour whose parent is
    [parent]. *)
Lemma siblings_loop_returns (rec : Z -> res Z) (parent : Z) :
  (forall s hs, vec_at hier s = Ret hs -> h3 hs = parent -> exists z, rec s = Ret z) ->
  forall (cfuel : nat) (next : Z) (k fuel : nat) (count : Z),
    chain_length hier cfuel next = Some k -> (k <= fuel)%nat ->
    (next > 0 -> exists hn, vec_at hier next = Ret hn /\ h3 hn = parent) ->
    exists z, siblings_loop contours hier imgSize rec fuel next count = Ret z.
Proof.
  intros Hrec cfuel. induction cfuel as [|cfuel IH]; intros next k fuel count Hk Hle Hnext.
  - simpl in Hk. destruct (decide (next > 0)); [discriminate|].
    destruct fuel; simpl; destruct (decide (next > 0)); try done; eauto.
  - simpl in Hk. destruct (decide (next > 0)) as [Hpos|Hpos].
    + destruct (Hnext Hpos) as (hn & Hhn & Hpar). rewrite Hhn in Hk.
      destruct (chain_length hier cfuel (h0 hn)) as [k'|] eqn:E; simpl in Hk; [|discriminate].
      injection Hk as <-. destruct fuel as [|fuel]; [lia|]. simpl.
      destruct (decide (next > 0)); [|done].
      destruct (vec_at_in_range contours next) as [c Hc].
      { apply vec_at_Ret in Hhn as [? Hl%lookup_lt_Some]. lia. }
      rewrite Hc. simpl. destruct (keep_total c imgSize) as [b ->]. simpl.
      destruct (Hrec next hn Hhn Hpar) as [z ->]. simpl. rewrite Hhn. simpl.
      apply (IH (h0 hn) k'); [exact E | lia |].
      intros Hn. destruct (node_next next hn Hhn Hn) as (hn' & Hn' & Hp').
      exists hn'. split; [exact Hn' | congruence].
    + destruct fuel; simpl; destruct (decide (next > 0)); try done; eauto.
Qed.

Lemma countChildren_returns (k : nat) :
  forall (i : Z) (hi : Vec4i) (d fuel : nat),
    vec_at hier i = Ret hi ->
    parent_depth hier (S (length hier)) i = Some d ->
    (S (length hier) - d <= k)%nat -> (S (length hier) + k <= fuel)%nat ->
    exists z, countChildren contours hier imgSize fuel i = Ret z.
Proof.
  induction k as [|k IH]; intros i hi d fuel Hi Hd Hk Hfuel.
  - apply parent_depth_lt in Hd. lia.
  - pose proof (parent_depth_lt _ _ _ Hd) as Hlt.
    destruct fuel as [|fuel]; [lia|]. simpl. rewrite Hi. simpl.
    destruct (decide (h2 hi < 0)) as [Hno|Hchild]; [eauto|].
    pose proof (proj1 (proj1 (vec_at_Ret _ _ _) Hi)) as Hi0.
    assert (Hbelow : forall s hs, vec_at hier s = Ret hs -> h3 hs = i ->
              exists z, countChildren contours hier imgSize fuel s = Ret z).
    { intros s hs Hs Hp. destruct (node_depth s hs Hs) as [ds Hds].
      pose proof (parent_depth_below _ s i hs d ds Hs Hp Hi0 Hd Hds) as ->.
      apply (IH s hs (S d) fuel Hs Hds); lia. }
    destruct (node_child i hi Hi Hchild) as (hc & Hc & Hpc).
    destruct (vec_at_in_range contours (h2 hi)) as [c Hcc].
    { apply vec_at_Ret in Hc as [? Hl%lookup_lt_Some]. lia. }
    rewrite Hcc. simpl. destruct (keep_total c imgSize) as [b ->]. simpl.
    destruct (Hbelow (h2 hi) hc Hc Hpc) as [z1 ->]. simpl.
    rewrite Hc. simpl.
    destruct (node_chain (h2 hi) hc Hc) as [kc Hkc].
    pose proof (chain_length_le _ _ _ Hkc) as Hkcle.
    assert (Hfirst : h0 hc > 0 -> exists hn, vec_at hier (h0 hc) = Ret hn /\ h3 hn = i).
    { intros Hn. destruct (node_next (h2 hi) hc Hc Hn) as (hn & Hn' & Hp').
      exists hn. split; [exact Hn' | congruence]. }
    destruct (siblings_loop_returns _ i Hbelow _ _ kc fuel
                (int_add (if b then 1 else 0) z1) Hkc ltac:(lia) Hfirst) as [z2 ->].
    simpl.
    destruct (siblings_loop_returns _ i Hbelow _ _ kc fuel z2 Hkc ltac:(lia) Hfirst)
      as [z3 ->].
    simpl. eauto.
Qed.

End Termination.

(** ** More fuel never changes a result *)

Section FuelMonotone.

Context (contours : list (list Point)) (hier : list Vec4i) (imgSize : Size).

Lemma siblings_loop_mono (rec rec' : Z -> res Z) :
  (forall s z, rec s = Ret z -> rec' s = Ret z) ->
  forall (fuel fuel' : nat) (next count z : Z),
    siblings_loop contours hier imgSize rec fuel next count = Ret z ->
    (fuel <= fuel')%nat ->
    siblings_loop contours hier imgSize rec' fuel' next count = Ret z.
Proof.
  intros Hrec fuel. induction fuel as [|fuel IH]; intros fuel' next count z H Hle.
  - simpl in H. destruct (decide (next > 0)); [discriminate|].
    destruct fuel'; simpl; destruct (decide (next > 0)); done.
  - simpl in H. destruct (decide (next > 0)) as [Hpos|Hpos].
    + destruct fuel' as [|fuel']; [lia|]. simpl. destruct (decide (next > 0)); [|done].
      apply bind_Ret in H as (c & -> & H). simpl.
      apply bind_Ret in H as (k & -> & H). simpl.
      apply bind_Ret in H as (sub & Hsub & H). rewrite (Hrec _ _ Hsub). simpl.
      apply bind_Ret in H as (hn & -> & H). simpl.
      apply IH; [exact H | lia].
    + destruct fuel'; simpl; destruct (decide (next > 0)); done.
Qed.

Lemma countChildren_mono (fuel : nat) :
  forall (fuel' : nat) (index z : Z),
    countChildren contours hier imgSize fuel index = Ret z ->
    (fuel <= fuel')%nat ->
    countChildren contours hier imgSize fuel' index = Ret z.
Proof.
  induction fuel as [|fuel IH]; intros fuel' index z H Hle; [discriminate|].
  destruct fuel' as [|fuel']; [lia|]. simpl in *.
  apply bind_Ret in H as (hi & -> & H). simpl.
  destruct (decide (h2 hi < 0)); [exact H|].
  apply bind_Ret in H as (c & -> & H). simpl.
  apply bind_Ret in H as (k & -> & H). simpl.
  apply bind_Ret in H as (sub & Hsub & H). rewrite (IH fuel' _ _ Hsub) by lia. simpl.
  apply bind_Ret in H as (hc & -> & H). simpl.
  apply bind_Ret in H as (n1 & H1 & H).
  rewrite (siblings_loop_mono _ (countChildren contours hier imgSize fuel')
             (fun s z Hs => IH fuel' s z Hs ltac:(lia)) _ fuel' _ _ _ H1) by lia.
  simpl. simpl in H.
  apply bind_Ret in H as (n2 & H2 & H).
  rewrite (siblings_loop_mono _ (countChildren contours hier imgSize fuel')
             (fun s z Hs => IH fuel' s z Hs ltac:(lia)) _ fuel' _ _ _ H2) by lia.
  simpl. exact H.
Qed.

End FuelMonotone.

Lemma countChildren_returns_on_forest (contours : list (list Point)) (hier : list Vec4i)
    (imgSize : Size) (index : Z) :
  length contours = length hier ->
  forest hier = true ->
  0 <= index < Z.of_nat (length hier) ->
  exists z, forall fuel, (2 * length hier + 2 <= fuel)%nat ->
    countChildren contours hier imgSize fuel index = Ret z.
Proof.
  intros Hlen Hforest Hidx.
  destruct (vec_at_in_range hier index Hidx) as [hi Hi].
  destruct (node_depth hier Hforest index hi Hi) as [d Hd].
  destruct (countChildren_returns hier Hforest contours imgSize Hlen (S (length hier))
              index hi d (2 * length hier + 2) Hi Hd ltac:(lia) ltac:(lia)) as [z Hz].
  exists z. intros fuel Hfuel. eapply countChildren_mono; eauto.
Qed.

(** The forest in words implies the check [forest]: on finitely many
    contours a walk that never comes back to a contour must stop. *)
Lemma finite_forest_forest (hier : list Vec4i) : finite_forest hier -> forest hier = true.
Proof.
  intros [Hchild Hnext Hparent Hanc Hchain]. unfold forest. apply forallb_forall.
  intros [i h] Hin. apply list_elem_of_In, elem_of_lookup_imap in Hin
    as (i' & h' & [= -> ->] & Hh). simpl.
  assert (vec_at hier (Z.of_nat i') = Ret h') as Hi.
  { apply vec_at_Ret. rewrite Nat2Z.id. split; [lia|done]. }
  assert (Hrange : forall x h, vec_at hier x = Ret h -> 0 <= x < Z.of_nat (length hier)).
  { intros x hx [? Hl%lookup_lt_Some]%vec_at_Ret. lia. }
  assert (Hlink : forall x hx, vec_at hier x = Ret hx -> next_step hier (h0 hx) <> Invalid).
  { intros x hx Hx. unfold next_step. destruct (decide (h0 hx > 0)) as [Hpos|]; [|done].
    destruct (Hnext x hx Hx Hpos) as (hn & -> & _). done. }
  unfold node_ok. rewrite !andb_true_iff. repeat split.
  - destruct (decide (h2 h' < 0)) as [|Hc]; [done|].
    destruct (Hchild _ _ Hi Hc) as (hc & -> & ->). by apply bool_decide_eq_true.
  - destruct (decide (h0 h' > 0)) as [Hn|]; [|done].
    destruct (Hnext _ _ Hi Hn) as (hn & -> & ->). by apply bool_decide_eq_true.
  - apply bool_decide_eq_true. rewrite parent_depth_walk.
    apply walk_length_acyclic.
    + intros x y Hxy. unfold parent_step in Hxy.
      destruct (vec_at hier x) as [hx| |] eqn:Hx; try done. eauto.
    + intros x y Hxy. unfold parent_step in Hxy.
      destruct (vec_at hier x) as [hx| |] eqn:Hx; try done.
      destruct (decide (h3 hx < 0)) as [|Hp]; [done|]. injection Hxy as <-.
      destruct (Hparent x hx Hx Hp) as [hp Hhp]. unfold parent_step. rewrite Hhp.
      destruct (decide _); done.
    + exact Hanc.
    + unfold parent_step. rewrite Hi. destruct (decide _); done.
  - apply bool_decide_eq_true. rewrite chain_length_walk.
    apply walk_length_acyclic.
    + intros x y Hxy. unfold next_step in Hxy. destruct (decide (x > 0)); [|done].
      destruct (vec_at hier x) as [hx| |] eqn:Hx; try done. eauto.
    + intros x y Hxy. unfold next_step in Hxy. destruct (decide (x > 0)); [|done].
      destruct (vec_at hier x) as [hx| |] eqn:Hx; try done. injection Hxy as <-. eauto.
    + exact Hchain.
    + eauto.
Qed.

Lemma forest_spec (hier : list Vec4i) : forest hier = true <-> finite_forest hier.
Proof. split; [apply forest_finite_forest | apply finite_forest_forest]. Qed.

(** C10.  [countChildren] terminates on every contour index of every
    hierarchy that is a finite forest (no contour is its own ancestor,
    every sibling chain is acyclic and so ends at a non-positive index):
    it returns one count, the same for every amount of fuel from twice
    the number of contours plus two on. *)
Theorem countChildren_terminates (contours : list (list Point)) (hier : list Vec4i)
    (imgSize : Size) (index : Z) :
  length contours = length hier ->
  finite_forest hier ->
  0 <= index < Z.of_nat (length hier) ->
  exists z, forall fuel, (2 * length hier + 2 <= fuel)%nat ->
    countChildren contours hier imgSize fuel index = Ret z.
Proof.
  intros Hlen Hforest Hidx.
  apply countChildren_returns_on_forest; auto. by apply forest_spec.
Qed.

Lemma countChildren_terminates_witness :
  exists z, forall fuel, (2 * length siblings_hier + 2 <= fuel)%nat ->
    countChildren siblings_contours siblings_hier sample_size fuel 1 = Ret z.
Proof.
  apply (countChildren_terminates siblings_contours siblings_hier sample_size 1).
  - reflexivity.
  - apply forest_spec. vm_compute. reflexivity.
  - simpl. lia.
Defined.

(** ** What [countChildren] counts *)

Section Counting.

Context (contours : list (list Point)) (hier : list Vec4i) (imgSize : Size).

(** A sibling loop adds to the count it starts from, in [int]
    arithmetic. *)
Lemma siblings_loop_shift (rec : Z -> res Z) (fuel : nat) :
  forall (next count count' z : Z),
    siblings_loop contours hier imgSize rec fuel next count = Ret z ->
    - 2 ^ 31 <= count' < 2 ^ 31 ->
    siblings_loop contours hier imgSize rec fuel next count'
    = Ret (int_wrap (z + (count' - count))).
Proof.
  induction fuel as [|fuel IH]; intros next count count' z; simpl.
  - destruct (decide (next > 0)); [discriminate|]. intros [= <-] Hc.
    f_equal. rewrite int_wrap_id; lia.
  - destruct (decide (next > 0)); [|intros [= <-] Hc; f_equal; rewrite int_wrap_id; lia].
    intros H Hc.
    apply bind_Ret in H as (c & -> & H). simpl.
    apply bind_Ret in H as (k & -> & H). simpl.
    apply bind_Ret in H as (sub & -> & H). simpl.
    apply bind_Ret in H as (hn & -> & H). simpl.
    rewrite (IH _ _ (int_add (if k then int_add count' 1 else count') sub) _ H)
      by apply int_wrap_range.
    f_equal. clear. unfold int_add, int_wrap. destruct k; Z.div_mod_to_equations; lia.
Qed.

(** Both loops of [countChildren] walk the next-sibling chain of the
    first child: what that chain contributes is added twice, and no loop
    follows the previous-sibling links. *)
Lemma countChildren_adds_next_chain_twice (fuel : nat) (index : Z) (hi hc : Vec4i)
    (c : list Point) (k : bool) (sub chain : Z) :
  vec_at hier index = Ret hi -> ~ h2 hi < 0 ->
  vec_at contours (h2 hi) = Ret c -> keep c imgSize = Ret k ->
  countChildren contours hier imgSize fuel (h2 hi) = Ret sub ->
  vec_at hier (h2 hi) = Ret hc ->
  siblings_loop contours hier imgSize (countChildren contours hier imgSize fuel)
    fuel (h0 hc) 0 = Ret chain ->
  countChildren contours hier imgSize (S fuel) index
  = Ret (int_wrap ((if k then 1 else 0) + sub + 2 * chain)).
Proof.
  intros Hi Hchild Hc Hk Hsub Hhc Hchain. simpl. rewrite Hi. simpl.
  destruct (decide (h2 hi < 0)); [done|].
  rewrite Hc. simpl. rewrite Hk. simpl. rewrite Hsub. simpl. rewrite Hhc. simpl.
  rewrite (siblings_loop_shift _ _ _ _ (int_add (if k then 1 else 0) sub) _ Hchain)
    by apply int_wrap_range.
  simpl.
  rewrite (siblings_loop_shift _ _ _ _
             (int_wrap (chain + (int_add (if k then 1 else 0) sub - 0))) _ Hchain)
    by apply int_wrap_range.
  simpl. f_equal. clear. unfold int_add, int_wrap.
  destruct k; Z.div_mod_to_equations; lia.
Qed.

(** The test of lines 131-133 reduces to: the contour is classified keep,
    it counts at most two descendants, and the parent walk ended at a
    non-positive index. *)
Lemma select_one_decides (fuel : nat) (i : Z) (sel : bool) (parent numChildren : Z) :
  select_one contours hier imgSize fuel i = Ret (sel, parent, numChildren) ->
  exists hi c k,
    vec_at hier i = Ret hi /\ vec_at contours i = Ret c /\ keep c imgSize = Ret k
    /\ parent_walk contours hier imgSize fuel (h3 hi) = Ret parent
    /\ countChildren contours hier imgSize fuel i = Ret numChildren
    /\ (sel = true <-> k = true /\ numChildren <= 2 /\ parent <= 0).
Proof.
  unfold select_one. intros H.
  apply bind_Ret in H as (hi & Hhi & H).
  apply bind_Ret in H as (p & Hp & H).
  apply bind_Ret in H as (n & Hn & H).
  apply bind_Ret in H as (c & Hc & H).
  apply bind_Ret in H as (k & Hk & H).
  injection H as <- <- <-.
  exists hi, c, k. repeat (split; [assumption|]).
  rewrite !andb_true_iff, negb_true_iff, andb_false_iff, !bool_decide_eq_true,
    !bool_decide_eq_false.
  split; [intros [[? ?] ?]|intros (? & ? & ?)]; repeat split; auto; lia.
Qed.

(** The parent walk stops only at a non-positive index or at an
    ancestor that is not classified keep. *)
Lemma parent_walk_stops (fuel : nat) :
  forall (start parent : Z),
    parent_walk contours hier imgSize fuel start = Ret parent ->
    parent <= 0
    \/ (exists c, vec_at contours parent = Ret c /\ keep c imgSize = Ret false).
Proof.
  induction fuel as [|fuel IH]; intros start parent; simpl.
  - destruct (decide (start > 0)); [discriminate|]. intros [= <-]. left. lia.
  - destruct (decide (start > 0)); [|intros [= <-]; left; lia].
    intros H.
    apply bind_Ret in H as (c & Hc & H).
    apply bind_Ret in H as (k & Hk & H).
    destruct k.
    + apply bind_Ret in H as (hp & Hhp & H). eauto.
    + injection H as <-. right. eauto.
Qed.

End Counting.

(** C2.  On a contour with two kept children and no deeper descendants,
    [countChildren] returns 3 although only 2 kept contours descend from
    it: the loop written for the previous siblings follows the
    next-sibling link as well, so the second child is counted twice. *)
Theorem countChildren_counts_next_sibling_twice :
  (forall fuel, (2 <= fuel)%nat ->
     countChildren siblings_contours siblings_hier sample_size fuel 1 = Ret 3)
  /\ worded_descendants siblings_hier 8 1 = [2; 3]
  /\ worded_count siblings_contours siblings_hier sample_size 8 1 = 2
  /\ forest siblings_hier = true.
Proof.
  split; [|by vm_compute].
  intros fuel Hfuel.
  apply (countChildren_mono _ _ _ 2); [by vm_compute | exact Hfuel].
Qed.

(** C1.  On a kept contour nested in a kept contour that counts one
    descendant, the selection loop keeps the inner contour, where the
    worded policy suppresses it; under an enclosing contour that is not
    kept, the loop rejects the inner contour, where the worded policy
    keeps it.  The loop's parent walk advances past kept ancestors, and
    its test reads the contour's own count in both places. *)
Theorem selection_differs_from_worded_policy :
  (select_one nested_contours nested_hier sample_size 8 2 = Ret (true, -1, 0)
   /\ worded_selected nested_contours nested_hier sample_size 8 2 = false
   /\ worded_kept_ancestor nested_contours nested_hier sample_size 8 1 = Some 1
   /\ countChildren nested_contours nested_hier sample_size 8 1 = Ret 1)
  /\ (select_one stroke_contours nested_hier sample_size 8 2 = Ret (false, 1, 0)
      /\ worded_selected stroke_contours nested_hier sample_size 8 2 = true
      /\ worded_kept_ancestor stroke_contours nested_hier sample_size 8 1 = None).
Proof. by vm_compute. Qed.

(** ** Selection: what [std::nth_element] determines *)

Lemma count_below_perm (x : Z) (l1 l2 : list Z) :
  l1 ≡ₚ l2 -> count_below x l1 = count_below x l2.
Proof. intros H. unfold count_below. by rewrite H. Qed.

Lemma filter_none (P : Z -> Prop) `{forall y, Decision (P y)} (l : list Z) :
  Forall (fun y => ~ P y) l -> filter P l = [].
Proof.
  induction 1 as [|y l Hy _ IH]; [reflexivity|].
  rewrite filter_cons_False by exact Hy. exact IH.
Qed.

Lemma filter_all (P : Z -> Prop) `{forall y, Decision (P y)} (l : list Z) :
  Forall P l -> filter P l = l.
Proof.
  induction 1 as [|y l Hy _ IH]; [reflexivity|].
  rewrite filter_cons_True by exact Hy. by rewrite IH.
Qed.

Lemma count_below_le_prefix (x : Z) (l : list Z) (k : nat) :
  (forall j y, (k <= j)%nat -> l !! j = Some y -> x <= y) ->
  (count_below x l <= k)%nat.
Proof.
  intros Hsuffix. unfold count_below. rewrite <- (take_drop k l) at 1.
  rewrite filter_app, length_app.
  rewrite (filter_none _ (drop k l)).
  - pose proof (length_filter (fun y => y < x) (take k l)).
    pose proof (length_take l k). simpl. lia.
  - apply Forall_lookup. intros j y Hj. rewrite lookup_drop in Hj.
    apply Hsuffix in Hj; lia.
Qed.

Lemma count_below_gt_prefix (x : Z) (l : list Z) (k : nat) :
  (k < length l)%nat ->
  (forall j y, (j <= k)%nat -> l !! j = Some y -> y < x) ->
  (k < count_below x l)%nat.
Proof.
  intros Hk Hprefix. unfold count_below. rewrite <- (take_drop (S k) l) at 1.
  rewrite filter_app, length_app.
  rewrite (filter_all _ (take (S k) l)).
  - rewrite length_take_le by lia. lia.
  - apply Forall_lookup. intros j y Hj.
    apply lookup_take_Some in Hj as [Hj Hlt]. apply (Hprefix j); [lia | exact Hj].
Qed.

(** Two rearrangements of the same values that are both partitioned at
    [k] hold the same value at position [k]. *)
Lemma partitioned_unique (l1 l2 : list Z) (k : nat) :
  l1 ≡ₚ l2 -> partitioned_at k l1 -> partitioned_at k l2 -> l1 !! k = l2 !! k.
Proof.
  intros Hperm H1 H2. pose proof (Permutation_length Hperm) as Hlen.
  destruct (l1 !! k) as [v|] eqn:E1; destruct (l2 !! k) as [w|] eqn:E2.
  - f_equal. destruct (Z.lt_trichotomy v w) as [Hlt|[Heq|Hgt]]; [|exact Heq|]; exfalso.
    + assert (k < count_below w l1)%nat as Ha.
      { apply count_below_gt_prefix; [by eapply lookup_lt_Some|].
        intros j y Hj Hy. destruct (H1 j y v Hy E1) as [Hle _]. specialize (Hle Hj). lia. }
      assert (count_below w l2 <= k)%nat as Hb.
      { apply count_below_le_prefix. intros j y Hj Hy.
        destruct (H2 j y w Hy E2) as [_ Hge]. auto. }
      rewrite (count_below_perm w l1 l2 Hperm) in Ha. lia.
    + assert (k < count_below v l2)%nat as Ha.
      { apply count_below_gt_prefix; [by eapply lookup_lt_Some|].
        intros j y Hj Hy. destruct (H2 j y w Hy E2) as [Hle _]. specialize (Hle Hj). lia. }
      assert (count_below v l1 <= k)%nat as Hb.
      { apply count_below_le_prefix. intros j y Hj Hy.
        destruct (H1 j y v Hy E1) as [_ Hge]. auto. }
      rewrite (count_below_perm v l1 l2 Hperm) in Hb. lia.
  - apply lookup_lt_Some in E1. apply lookup_ge_None in E2. lia.
  - apply lookup_lt_Some in E2. apply lookup_ge_None in E1. lia.
  - reflexivity.
Qed.

Lemma sorted_lookup_le (s : list Z) :
  StronglySorted Z.le s ->
  forall i j x y, (i <= j)%nat -> s !! i = Some x -> s !! j = Some y -> x <= y.
Proof.
  induction 1 as [|a l Hl IH Hall]; intros i j x y Hij Hx Hy; [done|].
  destruct i as [|i], j as [|j]; simpl in *; try lia.
  - injection Hx as <-. injection Hy as <-. lia.
  - injection Hx as <-. rewrite Forall_forall in Hall. apply Hall.
    eapply list_elem_of_lookup_2; eauto.
  - eapply (IH i j); eauto; lia.
Qed.

Lemma sorted_partitioned (s : list Z) (k : nat) :
  StronglySorted Z.le s -> partitioned_at k s.
Proof.
  intros Hs i x v Hx Hv. split; intros Hik.
  - eapply (sorted_lookup_le s Hs i k); eauto.
  - eapply (sorted_lookup_le s Hs k i); eauto.
Qed.

(** The value every implementation leaves at position [k]: the one a
    full sort puts there. *)
Lemma nth_element_lookup `{NthElement} (k : nat) (l : list Z) :
  nth_element k l !! k = merge_sort Z.le l !! k.
Proof.
  apply partitioned_unique.
  - rewrite nth_element_perm. symmetry. apply merge_sort_Permutation.
  - apply nth_element_part.
  - apply sorted_partitioned. apply StronglySorted_merge_sort; apply _.
Qed.

Lemma merge_sort_partitioned (k : nat) (l : list Z) :
  partitioned_at k (merge_sort Z.le l).
Proof. apply sorted_partitioned. apply StronglySorted_merge_sort; apply _. Qed.

(** Sorting is one implementation of [std::nth_element]. *)
#[global] Instance sorting_nth_element : NthElement := {|
  nth_element := fun _ l => merge_sort Z.le l;
  nth_element_perm := fun _ l => merge_sort_Permutation Z.le l;
  nth_element_part := merge_sort_partitioned
|}.

(** ** The background estimate *)

Lemma merge_sort_perm_eq (l l' : list Z) (k : nat) :
  l' ≡ₚ l -> merge_sort Z.le l' !! k = merge_sort Z.le l !! k.
Proof.
  intros Hperm. apply partitioned_unique; [|apply merge_sort_partitioned..].
  rewrite !merge_sort_Permutation. exact Hperm.
Qed.

Lemma vec_at_nth_element `{NthElement} (i : Z) (l l' : list Z) :
  l' ≡ₚ l ->
  vec_at (nth_element (Z.to_nat i) l') i = vec_at (merge_sort Z.le l) i.
Proof.
  intros Hperm. unfold vec_at. destruct (decide (0 <= i)); [|reflexivity].
  by rewrite nth_element_lookup, (merge_sort_perm_eq l l' _ Hperm).
Qed.

(** Whatever the implementation of [std::nth_element], the value of lines
    176-184 is read off the sorted samples at positions [len / 2] and
    [len / 2 + 1]. *)
Lemma bgThresh_of_sorted `{NthElement} (bgs : list Z) :
  bgThresh_of bgs =
  let len := Z.of_nat (length bgs) in
  let sorted := merge_sort Z.le bgs in
  v ← vec_at sorted (len / 2);
  if decide (len mod 2 = 0) then
    v' ← vec_at sorted (len / 2 + 1);
    Ret (div (add (of_int v) (of_int v')) (of_int 2))
  else Ret (of_int v).
Proof.
  unfold bgThresh_of. cbv zeta.
  rewrite (vec_at_nth_element _ bgs bgs) by reflexivity.
  destruct (vec_at (merge_sort Z.le bgs) (Z.of_nat (length bgs) / 2)) as [v| |];
    simpl; try reflexivity.
  destruct (decide _); [|reflexivity].
  rewrite (vec_at_nth_element _ bgs) by apply nth_element_perm.
  reflexivity.
Qed.

(** The estimate does not depend on the implementation of
    [std::nth_element]. *)
Lemma bgThresh_of_impl (I1 I2 : NthElement) (bgs : list Z) :
  @bgThresh_of I1 bgs = @bgThresh_of I2 bgs.
Proof. by rewrite !bgThresh_of_sorted. Qed.

(** C3.  On the twelve samples
    [10,10,10,10,10,10,200,200,200,200,200,200] the background estimate
    is 200 for every implementation of [std::nth_element]: the code
    averages the samples at sorted positions [len/2] and [len/2 + 1], the
    7th and 8th smallest, where the median of twelve values averages the
    6th and 7th smallest and is 105. *)
Theorem bgThresh_of_is_not_the_median (I : NthElement) :
  bgs_of halves_src halves_box = [10; 10; 10; 10; 10; 10; 200; 200; 200; 200; 200; 200]
  /\ bgThresh_of [10; 10; 10; 10; 10; 10; 200; 200; 200; 200; 200; 200] = Ret (of_int 200)
  /\ worded_median [10; 10; 10; 10; 10; 10; 200; 200; 200; 200; 200; 200] = of_int 105
  /\ bgThresh_of [1; 2; 3; 4; 5; 6; 7; 8; 9; 10; 11; 12] = Ret (Fin (15 # 2))
  /\ worded_median [1; 2; 3; 4; 5; 6; 7; 8; 9; 10; 11; 12] = Fin (13 # 2).
Proof.
  split; [by vm_compute|]. rewrite !bgThresh_of_sorted. by vm_compute.
Qed.

(** ** The fill loop *)


(** Every store of the fill loop is at a point of the box that passed the
    guard, and stores one of the two colours. *)
Lemma fill_writes_spec (img : Mat3) (box : Rect) (fgThresh : double) (fg bg : Z)
    (p : Point) (v : Z) :
  (p, v) ∈ fill_writes img box fgThresh fg bg ->
  (r_x box <= px p < r_x box + r_width box /\ r_y box <= py p < r_y box + r_height box)
  /\ fill_guard img (px p) (py p) = true
  /\ (v = fg \/ v = bg).
Proof.
  unfold fill_writes. intros H.
  apply list_elem_of_bind in H as (x & H & Hx%elem_of_seqZ).
  apply list_elem_of_bind in H as (y & H & Hy%elem_of_seqZ).
  destruct (fill_guard img x y) eqn:Hg; [|by apply elem_of_nil in H].
  apply list_elem_of_singleton in H. injection H as -> ->. simpl.
  repeat split; try lia; [exact Hg|].
  destruct (gtb _ _); auto.
Qed.


(** ** Shape and contents of the mask *)

Lemma has_shape_cols {A : Type} (W H : nat) (m : Mat A) :
  has_shape W H m -> (0 < H)%nat -> cols m = Z.of_nat W.
Proof.
  intros [Hlen Hrows] HH. unfold cols. destruct m as [|row m]; simpl in *; [lia|].
  apply Forall_cons in Hrows as [-> _]. reflexivity.
Qed.

Lemma has_shape_rows {A : Type} (W H : nat) (m : Mat A) :
  has_shape W H m -> rows m = Z.of_nat H.
Proof. intros [Hlen _]. unfold rows. by rewrite Hlen. Qed.

Lemma mat_fill_shape (sz : Size) (v : Z) :
  has_shape (Z.to_nat (s_width sz)) (Z.to_nat (s_height sz)) (mat_fill sz v).
Proof.
  unfold mat_fill. split; [apply length_replicate|].
  apply Forall_replicate, length_replicate.
Qed.

Lemma mat_fill_all (sz : Size) (v : Z) : Forall (Forall (fun u => u = v)) (mat_fill sz v).
Proof. unfold mat_fill. apply Forall_replicate, Forall_replicate. reflexivity. Qed.

Lemma mat_row_Forall {A : Type} (P : A -> Prop) (m : Mat A) (i : nat) :
  Forall (Forall P) m -> Forall P (nth i m []).
Proof.
  intros Hm. rewrite nth_lookup. destruct (m !! i) as [row|] eqn:E; simpl.
  - eapply Forall_lookup_1; eauto.
  - constructor.
Qed.

Lemma mat_set_Forall (P : Z -> Prop) (m m' : Mat1) (p : Point) (v : Z) :
  Forall (Forall P) m -> P v -> mat_set m p v = Ret m' -> Forall (Forall P) m'.
Proof.
  unfold mat_set. intros Hm Hv. destruct (decide _); [|discriminate].
  intros [= <-]. apply Forall_insert; [exact Hm|].
  apply Forall_insert; [|exact Hv]. by apply mat_row_Forall.
Qed.

Lemma mat_set_shape (W H : nat) (m m' : Mat1) (p : Point) (v : Z) :
  has_shape W H m -> mat_set m p v = Ret m' -> has_shape W H m'.
Proof.
  unfold mat_set. intros [Hlen Hrows]. destruct (decide _); [|discriminate].
  intros [= <-]. split; [by rewrite length_insert|].
  apply Forall_insert; [exact Hrows|]. rewrite length_insert.
  rewrite nth_lookup. destruct (m !! Z.to_nat (py p)) as [row|] eqn:E; simpl.
  - eapply (Forall_lookup_1 _ _ _ _ Hrows); eauto.
  - apply lookup_ge_None in E. unfold rows in *. lia.
Qed.

Lemma mat_set_in_range (W H : nat) (m : Mat1) (p : Point) (v : Z) :
  has_shape W H m -> 0 <= px p < Z.of_nat W -> 0 <= py p < Z.of_nat H ->
  exists m', mat_set m p v = Ret m'.
Proof.
  intros Hm Hx Hy. unfold mat_set.
  rewrite (has_shape_cols W H m Hm) by lia. rewrite (has_shape_rows W H m Hm).
  destruct (decide _) as [_|Hno]; [eauto | lia].
Qed.

Lemma store_all_Forall (P : Z -> Prop) (writes : list (Point * Z)) :
  forall (m m' : Mat1),
    Forall (Forall P) m -> Forall (fun w => P w.2) writes ->
    store_all m writes = Ret m' -> Forall (Forall P) m'.
Proof.
  induction writes as [|[p v] writes IH]; intros m m' Hm Hw; simpl.
  - intros [= <-]. exact Hm.
  - apply Forall_cons in Hw as [Hv Hw]. intros Hs.
    apply bind_Ret in Hs as (m1 & H1 & Hs). eapply IH; [|exact Hw|exact Hs].
    eapply mat_set_Forall; eauto.
Qed.

Lemma store_all_shape (W H : nat) (writes : list (Point * Z)) :
  forall (m m' : Mat1),
    has_shape W H m -> store_all m writes = Ret m' -> has_shape W H m'.
Proof.
  induction writes as [|[p v] writes IH]; intros m m' Hm; simpl.
  - intros [= <-]. exact Hm.
  - intros Hs. apply bind_Ret in Hs as (m1 & H1 & Hs). eapply IH; [|exact Hs].
    eapply mat_set_shape; eauto.
Qed.

Lemma store_all_in_range (W H : nat) (writes : list (Point * Z)) :
  forall (m : Mat1),
    has_shape W H m ->
    Forall (fun w => 0 <= px w.1 < Z.of_nat W /\ 0 <= py w.1 < Z.of_nat H) writes ->
    exists m', store_all m writes = Ret m'.
Proof.
  induction writes as [|[p v] writes IH]; intros m Hm Hw; simpl; [eauto|].
  apply Forall_cons in Hw as [[Hx Hy] Hw]. simpl in Hx, Hy.
  destruct (mat_set_in_range W H m p v Hm Hx Hy) as [m1 H1]. rewrite H1. simpl.
  apply IH; [|exact Hw]. eapply mat_set_shape; eauto.
Qed.

Lemma colors_of_binary (fgThresh bgThresh : double) :
  binary (colors_of fgThresh bgThresh).1 /\ binary (colors_of fgThresh bgThresh).2.
Proof. unfold colors_of, binary. destruct (geb _ _); simpl; auto. Qed.

Section Painting.

Context {impl : NthElement}.

Lemma paint_region_binary (src img : Mat3) (m m' : Mat1) (p : list Point * Rect) :
  Forall (Forall binary) m -> paint_region src img m p = Ret m' ->
  Forall (Forall binary) m'.
Proof.
  unfold paint_region. intros Hm Hp.
  apply bind_Ret in Hp as (bgThresh & _ & Hp).
  pose proof (colors_of_binary (fgThresh_of src p.1) bgThresh) as [Hfg Hbg].
  destruct (colors_of (fgThresh_of src p.1) bgThresh) as [fg bg]. simpl in Hfg, Hbg.
  eapply store_all_Forall; [exact Hm| |exact Hp].
  apply Forall_forall. intros [q v] Hq. simpl.
  apply fill_writes_spec in Hq as (_ & _ & [->| ->]); assumption.
Qed.

Lemma paint_region_shape (W H0 : nat) (src img : Mat3) (m m' : Mat1)
    (p : list Point * Rect) :
  has_shape W H0 m -> paint_region src img m p = Ret m' -> has_shape W H0 m'.
Proof.
  unfold paint_region. intros Hm Hp.
  apply bind_Ret in Hp as (bgThresh & _ & Hp).
  destruct (colors_of (fgThresh_of src p.1) bgThresh) as [fg bg].
  eapply store_all_shape; eauto.
Qed.

Lemma paint_regions_binary (src img : Mat3) (kept : list (list Point * Rect)) :
  forall (m m' : Mat1),
    Forall (Forall binary) m -> paint_regions src img m kept = Ret m' ->
    Forall (Forall binary) m'.
Proof.
  induction kept as [|p kept IH]; intros m m' Hm; simpl.
  - intros [= <-]. exact Hm.
  - intros Hp. apply bind_Ret in Hp as (m1 & H1 & Hp).
    eapply IH; [|exact Hp]. eapply paint_region_binary; eauto.
Qed.

Lemma paint_regions_shape (W H0 : nat) (src img : Mat3) (kept : list (list Point * Rect)) :
  forall (m m' : Mat1),
    has_shape W H0 m -> paint_regions src img m kept = Ret m' -> has_shape W H0 m'.
Proof.
  induction kept as [|p kept IH]; intros m m' Hm; simpl.
  - intros [= <-]. exact Hm.
  - intros Hp. apply bind_Ret in Hp as (m1 & H1 & Hp).
    eapply IH; [|exact Hp]. eapply paint_region_shape; eauto.
Qed.

Lemma textBinary_from_binary (fuel : nat) (src img : Mat3) (edgesSize : Size)
    (contours : list (list Point)) (hierarchy : list Vec4i) (mask : Mat1) :
  textBinary_from fuel src img edgesSize contours hierarchy = Ret mask ->
  Forall (Forall binary) mask
  /\ has_shape (Z.to_nat (s_width edgesSize)) (Z.to_nat (s_height edgesSize)) mask.
Proof.
  unfold textBinary_from. intros Hm. apply bind_Ret in Hm as (kept & _ & Hm). split.
  - eapply paint_regions_binary; [|exact Hm].
    eapply Forall_impl; [apply (mat_fill_all edgesSize 255)|].
    intros row Hrow. eapply Forall_impl; [exact Hrow|]. intros v ->. by right.
  - eapply paint_regions_shape; [|exact Hm]. apply mat_fill_shape.
Qed.

End Painting.

(** ** [textBinary] returns on what [cv::findContours] produces *)

Lemma foldr_min_glb (lb a : Z) (l : list Z) :
  lb <= a -> Forall (fun b => lb <= b) l -> lb <= foldr Z.min a l.
Proof. intros Ha. induction 1; simpl; lia. Qed.

Lemma foldr_max_lub (ub a : Z) (l : list Z) :
  a <= ub -> Forall (fun b => b <= ub) l -> foldr Z.max a l <= ub.
Proof. intros Ha. induction 1; simpl; lia. Qed.

(** The box of a non-empty contour traced inside a [W] by [H] image lies
    inside the image. *)
Lemma boundingRect_inside (W H : Z) (contour : list Point) :
  contour <> [] ->
  Forall (fun p => 0 <= px p < W /\ 0 <= py p < H) contour ->
  let box := boundingRect contour in
  0 <= r_x box /\ r_x box + r_width box <= W /\ 0 <= r_y box /\ r_y box + r_height box <= H.
Proof.
  destruct contour as [|p ps]; [done|]. intros _ Hall.
  apply Forall_cons in Hall as [Hp Hps]. simpl.
  assert (Forall (fun b => 0 <= b) (px <$> ps)) as Hx0.
  { apply Forall_fmap. eapply Forall_impl; [exact Hps|]. simpl. intros; lia. }
  assert (Forall (fun b => b <= W - 1) (px <$> ps)) as Hx1.
  { apply Forall_fmap. eapply Forall_impl; [exact Hps|]. simpl. intros; lia. }
  assert (Forall (fun b => 0 <= b) (py <$> ps)) as Hy0.
  { apply Forall_fmap. eapply Forall_impl; [exact Hps|]. simpl. intros; lia. }
  assert (Forall (fun b => b <= H - 1) (py <$> ps)) as Hy1.
  { apply Forall_fmap. eapply Forall_impl; [exact Hps|]. simpl. intros; lia. }
  pose proof (foldr_min_glb 0 (px p) _ ltac:(lia) Hx0).
  pose proof (foldr_max_lub (W - 1) (px p) _ ltac:(lia) Hx1).
  pose proof (foldr_min_glb 0 (py p) _ ltac:(lia) Hy0).
  pose proof (foldr_max_lub (H - 1) (py p) _ ltac:(lia) Hy1).
  lia.
Qed.

Lemma bgThresh_of_twelve `{NthElement} (src : Mat3) (box : Rect) :
  exists d, bgThresh_of (bgs_of src box) = Ret d.
Proof.
  rewrite bgThresh_of_sorted. cbv zeta.
  assert (length (merge_sort Z.le (bgs_of src box)) = 12%nat) as Hlen.
  { by rewrite (Permutation_length (merge_sort_Permutation Z.le _)). }
  change (Z.of_nat (length (bgs_of src box))) with 12.
  change (12 / 2) with 6. change (6 + 1) with 7.
  destruct (vec_at_in_range (merge_sort Z.le (bgs_of src box)) 6) as [v ->]; [lia|].
  destruct (vec_at_in_range (merge_sort Z.le (bgs_of src box)) 7) as [v' ->]; [lia|].
  simpl. eauto.
Qed.

(** Every selected region is a contour of the input that is classified
    keep, paired with its bounding rectangle. *)
Lemma select_from_kept (contours : list (list Point)) (hier : list Vec4i)
    (edgesSize : Size) (fuel : nat) (cs : list (list Point)) :
  forall (n0 : nat) (l : list (list Point * Rect)),
    drop n0 contours = cs ->
    select_from contours hier edgesSize fuel (Z.of_nat n0) cs = Ret l ->
    Forall (fun r => r.1 ∈ contours /\ r.2 = boundingRect r.1
                     /\ keep r.1 edgesSize = Ret true) l.
Proof.
  induction cs as [|c cs IH]; intros n0 l Hdrop; simpl.
  - intros [= <-]. constructor.
  - intros Hs. apply bind_Ret in Hs as ([[sel p] nc] & Hone & Hs).
    apply bind_Ret in Hs as (rest & Hrest & Hs). injection Hs as <-.
    replace (Z.of_nat n0 + 1) with (Z.of_nat (S n0)) in Hrest by lia.
    assert (contours !! n0 = Some c) as Hc.
    { rewrite <- (Nat.add_0_r n0), <- lookup_drop, Hdrop. reflexivity. }
    assert (drop (S n0) contours = cs) as Hdrop'.
    { replace (S n0) with (n0 + 1)%nat by lia. rewrite <- drop_drop, Hdrop. reflexivity. }
    specialize (IH (S n0) rest Hdrop' Hrest).
    destruct sel; [|exact IH]. constructor; [|exact IH]. simpl.
    apply select_one_decides in Hone
      as (hi & c' & k & _ & Hc' & Hk & _ & _ & Hsel).
    apply vec_at_Ret in Hc' as [_ Hc']. rewrite Nat2Z.id, Hc in Hc'. injection Hc' as <-.
    destruct (proj1 Hsel eq_refl) as (-> & _ & _).
    repeat split; [eapply list_elem_of_lookup_2; eauto | exact Hk].
Qed.

Section Totality.

Context {impl : NthElement}.
Context (contours : list (list Point)) (hier : list Vec4i) (edgesSize : Size).
Hypothesis is_forest : forest hier = true.
Hypothesis same_length : length contours = length hier.

Lemma parent_walk_returns (f : nat) :
  forall (p : Z) (fuel : nat),
    (p > 0 -> is_Some (parent_depth hier f p)) -> (f <= fuel)%nat ->
    exists z, parent_walk contours hier edgesSize fuel p = Ret z.
Proof.
  induction f as [|f IH]; intros p fuel Hd Hle.
  - destruct (decide (p > 0)) as [Hp|Hp].
    + destruct (Hd Hp) as [d Hd']. discriminate.
    + destruct fuel; simpl; destruct (decide (p > 0)); try done; eauto.
  - destruct (decide (p > 0)) as [Hp|Hp].
    + destruct (Hd Hp) as [d Hd']. simpl in Hd'.
      destruct (vec_at hier p) as [hp| |] eqn:Hhp; try discriminate.
      destruct fuel as [|fuel]; [lia|]. simpl. destruct (decide (p > 0)); [|done].
      destruct (vec_at_in_range contours p) as [c Hc].
      { apply vec_at_Ret in Hhp as [? Hl%lookup_lt_Some]. lia. }
      rewrite Hc. simpl. destruct (keep_total c edgesSize) as [b ->]. simpl.
      destruct b; [|eauto]. rewrite Hhp. simpl.
      apply IH; [|lia]. intros Hpos. destruct (decide (h3 hp < 0)); [lia|].
      destruct (parent_depth hier f (h3 hp)); [eauto|discriminate].
    + destruct fuel; simpl; destruct (decide (p > 0)); try done; eauto.
Qed.

Lemma select_one_returns (fuel : nat) (i : Z) :
  0 <= i < Z.of_nat (length hier) -> (2 * length hier + 2 <= fuel)%nat ->
  exists r, select_one contours hier edgesSize fuel i = Ret r.
Proof.
  intros Hi Hfuel. unfold select_one.
  destruct (vec_at_in_range hier i Hi) as [hi Hhi]. rewrite Hhi. simpl.
  destruct (node_depth hier is_forest i hi Hhi) as [d Hd].
  destruct (parent_walk_returns (length hier) (h3 hi) fuel) as [p ->]; [|lia|].
  { intros Hpos. simpl in Hd. rewrite Hhi in Hd. destruct (decide (h3 hi < 0)); [lia|].
    destruct (parent_depth hier (length hier) (h3 hi)); [eauto|discriminate]. }
  simpl.
  destruct (countChildren_returns_on_forest contours hier edgesSize i same_length
              is_forest Hi) as [z Hz].
  rewrite (Hz fuel Hfuel). simpl.
  destruct (vec_at_in_range contours i) as [c ->]; [lia|]. simpl.
  destruct (keep_total c edgesSize) as [b ->]. simpl. eauto.
Qed.

Lemma select_from_returns (fuel : nat) (cs : list (list Point)) :
  forall (n0 : nat),
    (n0 + length cs = length hier)%nat -> (2 * length hier + 2 <= fuel)%nat ->
    exists l, select_from contours hier edgesSize fuel (Z.of_nat n0) cs = Ret l.
Proof.
  induction cs as [|c cs IH]; intros n0 Hn Hfuel; simpl; [eauto|].
  simpl in Hn.
  destruct (select_one_returns fuel (Z.of_nat n0)) as [[[sel p] nc] ->]; [lia|lia|].
  simpl. replace (Z.of_nat n0 + 1) with (Z.of_nat (S n0)) by lia.
  destruct (IH (S n0)) as [l ->]; [lia|lia|]. simpl. eauto.
Qed.

Hypothesis inside :
  Forall (Forall (fun p => 0 <= px p < s_width edgesSize /\ 0 <= py p < s_height edgesSize))
    contours.

Lemma paint_region_returns (src img : Mat3) (m : Mat1) (r : list Point * Rect) :
  has_shape (Z.to_nat (s_width edgesSize)) (Z.to_nat (s_height edgesSize)) m ->
  r.1 ∈ contours -> r.2 = boundingRect r.1 -> keep r.1 edgesSize = Ret true ->
  exists m', paint_region src img m r = Ret m'.
Proof.
  intros Hm Hin Hbox Hkeep. unfold paint_region.
  destruct (bgThresh_of_twelve src r.2) as [bgThresh ->]. simpl.
  destruct (colors_of (fgThresh_of src r.1) bgThresh) as [fg bg].
  eapply store_all_in_range; [exact Hm|].
  apply Forall_forall. intros [q v] Hq. simpl.
  apply fill_writes_spec in Hq as (Hq & _ & _). rewrite Hbox in Hq.
  rewrite Forall_forall in inside.
  pose proof (boundingRect_inside (s_width edgesSize) (s_height edgesSize) r.1
                (keep_true_nonempty _ _ Hkeep) (inside _ Hin)) as Hins.
  simpl in Hins. lia.
Qed.

Lemma paint_regions_returns (src img : Mat3) (kept : list (list Point * Rect)) :
  forall (m : Mat1),
    has_shape (Z.to_nat (s_width edgesSize)) (Z.to_nat (s_height edgesSize)) m ->
    Forall (fun r => r.1 ∈ contours /\ r.2 = boundingRect r.1
                     /\ keep r.1 edgesSize = Ret true) kept ->
    exists m', paint_regions src img m kept = Ret m'.
Proof.
  induction kept as [|r kept IH]; intros m Hm Hkept; simpl; [eauto|].
  apply Forall_cons in Hkept as [(Hin & Hbox & Hkeep) Hkept].
  destruct (paint_region_returns src img m r Hm Hin Hbox Hkeep) as [m1 H1].
  rewrite H1. simpl. apply IH; [|exact Hkept]. eapply paint_region_shape; eauto.
Qed.

(** On a forest of contours traced inside the image, lines 120-213 run to
    completion: no access is out of range and no store leaves the mask. *)
Lemma textBinary_from_returns (fuel : nat) (src img : Mat3) :
  (2 * length hier + 2 <= fuel)%nat ->
  exists mask, textBinary_from fuel src img edgesSize contours hier = Ret mask.
Proof.
  intros Hfuel. unfold textBinary_from, keptRegions.
  destruct (select_from_returns fuel contours 0) as [kept Hkept]; [lia|lia|].
  change (Z.of_nat 0) with 0 in Hkept. rewrite Hkept. simpl.
  apply paint_regions_returns; [apply mat_fill_shape|].
  eapply (select_from_kept contours hier edgesSize fuel contours 0); [reflexivity|exact Hkept].
Qed.

End Totality.

(** ** Independence of the [std::nth_element] implementation *)

Lemma reversed_prefix_perm (n : nat) (l : list Z) : reversed_prefix n l ≡ₚ l.
Proof.
  unfold reversed_prefix. rewrite reverse_Permutation, take_drop.
  apply merge_sort_Permutation.
Qed.

Lemma reversed_prefix_part (n : nat) (l : list Z) : partitioned_at n (reversed_prefix n l).
Proof.
  unfold reversed_prefix. set (s := merge_sort Z.le l).
  assert (StronglySorted Z.le s) as Hs by (apply StronglySorted_merge_sort; apply _).
  intros i x v Hx Hv.
  destruct (decide (n < length s)%nat) as [Hn|Hn].
  - assert (length (reverse (take n s)) = n) as Hlen.
    { rewrite length_reverse, length_take_le; lia. }
    rewrite lookup_app_r, Hlen, Nat.sub_diag, lookup_drop, Nat.add_0_r in Hv by lia.
    destruct (decide (i < n)%nat) as [Hi|Hi].
    + rewrite lookup_app_l in Hx by lia.
      apply list_elem_of_lookup_2 in Hx. rewrite elem_of_reverse in Hx.
      apply list_elem_of_lookup in Hx as [j Hj].
      apply lookup_take_Some in Hj as [Hj Hjn].
      split; [|lia]. intros _. eapply (sorted_lookup_le s Hs j n); eauto; lia.
    + rewrite lookup_app_r, Hlen, lookup_drop in Hx by lia.
      replace (n + (i - n))%nat with i in Hx by lia.
      split; intros Hin.
      * assert (i = n) as -> by lia. assert (x = v) by congruence. lia.
      * eapply (sorted_lookup_le s Hs n i); eauto.
  - apply lookup_lt_Some in Hv.
    rewrite length_app, length_reverse, length_take, length_drop in Hv. lia.
Qed.

Definition reversed_prefix_nth_element : NthElement := {|
  nth_element := reversed_prefix;
  nth_element_perm := reversed_prefix_perm;
  nth_element_part := reversed_prefix_part
|}.

Lemma paint_region_impl (I1 I2 : NthElement) (src img : Mat3) (m : Mat1)
    (p : list Point * Rect) :
  @paint_region I1 src img m p = @paint_region I2 src img m p.
Proof. unfold paint_region. by rewrite (bgThresh_of_impl I1 I2). Qed.

Lemma paint_regions_impl (I1 I2 : NthElement) (src img : Mat3)
    (kept : list (list Point * Rect)) :
  forall m, @paint_regions I1 src img m kept = @paint_regions I2 src img m kept.
Proof.
  induction kept as [|p kept IH]; intros m; simpl; [reflexivity|].
  rewrite (paint_region_impl I1 I2).
  destruct (@paint_region I2 src img m p); simpl; auto.
Qed.

Lemma textBinary_from_impl (I1 I2 : NthElement) (fuel : nat) (src img : Mat3)
    (edgesSize : Size) (contours : list (list Point)) (hierarchy : list Vec4i) :
  @textBinary_from I1 fuel src img edgesSize contours hierarchy
  = @textBinary_from I2 fuel src img edgesSize contours hierarchy.
Proof.
  unfold textBinary_from.
  destruct (keptRegions contours hierarchy edgesSize fuel); simpl; auto.
  apply paint_regions_impl.
Qed.

(** ** The claims about the compositor and the whole pipeline *)



(** C8.  Every pixel of the mask returned by [textBinary] is 0 or 255:
    the mask starts uniformly 255 and every store writes a region's
    foreground or background colour, both taken from 0 and 255. *)
Theorem textBinary_mask_is_binary (impl : NthElement) (Canny : Mat1 -> Mat1)
    (findContours : Mat1 -> list (list Point) * list Vec4i)
    (fuel : nat) (src : Mat3) (mask : Mat1) :
  textBinary Canny findContours fuel src = Ret mask ->
  Forall (Forall (fun v => v = 0 \/ v = 255)) mask.
Proof.
  unfold textBinary. destruct (findContours _) as [contours hierarchy].
  intros Hm. by apply textBinary_from_binary in Hm as [Hm _].
Qed.

Lemma textBinary_mask_is_binary_witness :
  exists mask,
    textBinary pass_through two_traced 4 light_src = Ret mask
    /\ Forall (Forall (fun v => v = 0 \/ v = 255)) mask.
Proof.
  eexists. split; [vm_compute; reflexivity|].
  apply (textBinary_mask_is_binary sorting_nth_element pass_through two_traced 4 light_src).
  vm_compute. reflexivity.
Defined.

(** C9.  [textBinary] is deterministic: two runs on identical images give
    identical results, also when the two runs use different
    implementations of [std::nth_element], the only step whose outcome
    the C++ standard leaves partly open. *)
Theorem textBinary_deterministic (I1 I2 : NthElement) (Canny : Mat1 -> Mat1)
    (findContours : Mat1 -> list (list Point) * list Vec4i)
    (fuel : nat) (src1 src2 : Mat3) :
  src1 = src2 ->
  @textBinary I1 Canny findContours fuel src1 = @textBinary I2 Canny findContours fuel src2.
Proof.
  intros <-. unfold textBinary. destruct (findContours _) as [contours hierarchy].
  apply textBinary_from_impl.
Qed.

Lemma textBinary_deterministic_witness :
  @textBinary sorting_nth_element pass_through two_traced 4 light_src
  = @textBinary reversed_prefix_nth_element pass_through two_traced 4
      (replicate 20 (replicate 20 (mkVec3b 200 200 200))).
Proof.
  apply (textBinary_deterministic sorting_nth_element reversed_prefix_nth_element).
  reflexivity.
Defined.

(** ** Degenerate inputs *)

Lemma omap_imap_nil {A B : Type} (P : A -> Prop) (row : list A) :
  forall (g : nat -> A -> option B),
    (forall x v, g x v = None <-> P v) ->
    omap id (imap g row) = [] <-> Forall P row.
Proof.
  induction row as [|v row IH]; intros g Hg; simpl.
  - split; [constructor | reflexivity].
  - rewrite Forall_cons, <- (IH (g ∘ S)) by (intros x u; apply Hg).
    rewrite <- (Hg 0%nat v). unfold id at 1. destruct (g 0%nat v); simpl; split.
    + discriminate.
    + intros [? _]. discriminate.
    + auto.
    + tauto.
Qed.

Lemma concat_imap_nil {A B : Type} (Q : list A -> Prop) (img : Mat A) :
  forall (h : nat -> list A -> list B),
    (forall y row, h y row = [] <-> Q row) ->
    concat (imap h img) = [] <-> Forall Q img.
Proof.
  induction img as [|row img IH]; intros h Hh; simpl.
  - split; [constructor | reflexivity].
  - rewrite Forall_cons, <- (IH (h ∘ S)) by (intros y r; apply Hh).
    rewrite <- (Hh 0%nat row). split.
    + intros H. by apply app_eq_nil in H.
    + intros [-> ->]. reflexivity.
Qed.

(** No point is collected exactly when every pixel is zero. *)
Lemma plateBounds_points_nil (img : Mat1) :
  plateBounds_points img = [] <-> Forall (Forall (fun v => v = 0)) img.
Proof.
  unfold plateBounds_points. apply concat_imap_nil. intros y row.
  apply omap_imap_nil. intros x v. destruct (decide (v <> 0)); split; try done; lia.
Qed.

(** C4, as the code has it.  [textBinary] special-cases nothing, yet its
    degenerate contours are harmless: an empty or single-point contour is
    rejected by the area test before [isConnected] indexes it, so [keep]
    returns on every contour, every kept region has a non-empty contour
    (the mean divides by a positive count), zero contours give the
    uniform 255 mask, and on a forest of contours traced inside the image
    the run completes.  [isConnected] alone faults on an empty contour,
    and [plateBounds] hands its points to [cv::minAreaRect] without a
    check: it completes exactly when some pixel is non-zero after
    thresholding and erosion. *)
Theorem degenerate_inputs (impl : NthElement) :
  (forall imgSize, keep [] imgSize = Ret false)
  /\ (forall p imgSize, keep [p] imgSize = Ret false)
  /\ (forall contour imgSize, exists b, keep contour imgSize = Ret b)
  /\ isConnected [] = Fault
  /\ (forall contours hier imgSize fuel kept,
        keptRegions contours hier imgSize fuel = Ret kept ->
        Forall (fun r => r.1 <> [] /\ (0 < length r.1)%nat
                         /\ keep r.1 imgSize = Ret true) kept)
  /\ (forall fuel src img edgesSize,
        textBinary_from fuel src img edgesSize [] [] = Ret (mat_fill edgesSize 255))
  /\ (forall contours hier edgesSize fuel src img,
        forest hier = true -> length contours = length hier ->
        Forall (Forall (fun p => 0 <= px p < s_width edgesSize
                                 /\ 0 <= py p < s_height edgesSize)) contours ->
        (2 * length hier + 2 <= fuel)%nat ->
        exists mask, textBinary_from fuel src img edgesSize contours hier = Ret mask)
  /\ (forall img,
        plateBounds_completes img = true <-> ~ Forall (Forall (fun v => v = 0)) img).
Proof.
  split; [exact keep_nil|]. split; [exact keep_singleton|].
  split; [exact keep_total|]. split; [reflexivity|]. split; [|split; [|split]].
  - intros contours hier imgSize fuel kept Hkept.
    apply (select_from_kept contours hier imgSize fuel contours 0) in Hkept; [|reflexivity].
    eapply Forall_impl; [exact Hkept|]. intros r (_ & _ & Hk).
    pose proof (keep_true_nonempty _ _ Hk) as Hne.
    repeat split; auto. destruct r.1; [done | simpl; lia].
  - reflexivity.
  - intros contours hier edgesSize fuel src img Hforest Hlen Hin Hfuel.
    by apply textBinary_from_returns.
  - intros img. rewrite <- plateBounds_points_nil. unfold plateBounds_completes.
    destruct (plateBounds_points img); simpl; split; done.
Qed.

Lemma degenerate_inputs_witness :
  exists mask,
    textBinary_from 6 light_src (copyMakeBorder light_src 50) (mkSize 120 120)
      (two_traced []).1 (two_traced []).2 = Ret mask.
Proof.
  destruct (degenerate_inputs sorting_nth_element) as (_ & _ & _ & _ & _ & _ & H & _).
  apply H.
  - reflexivity.
  - reflexivity.
  - apply (bool_decide_unpack _). by vm_compute.
  - simpl. lia.
Defined.

(** C4 as stated fails: with no non-zero pixel left, [plateBounds] calls
    [cv::minAreaRect] on an empty point set. *)
Lemma plateBounds_on_empty_point_set :
  plateBounds_points [[0; 0; 0]; [0; 0; 0]] = []
  /\ plateBounds_completes [[0; 0; 0]; [0; 0; 0]] = false.
Proof. split; reflexivity. Qed.

(** * Further properties of the code *)

(** ** The classifier *)

Lemma vec_at_head {A : Type} (l : list A) :
  vec_at l 0 = match head l with Some a => Ret a | None => Fault end.
Proof. unfold vec_at. destruct (decide (0 <= 0)); [|lia]. by rewrite head_lookup. Qed.

Lemma vec_at_last {A : Type} (l : list A) :
  vec_at l (Z.of_nat (length l) - 1) = match last l with Some a => Ret a | None => Fault end.
Proof.
  unfold vec_at. destruct l as [|a l]; [reflexivity|].
  destruct (decide _) as [_|Hn]; [|simpl in Hn; lia].
  rewrite last_lookup. replace (Z.to_nat (Z.of_nat (length (a :: l)) - 1))
    with (pred (length (a :: l))) by (simpl; lia).
  reflexivity.
Qed.

(** [isConnected] in terms of the two ends of the contour. *)
Lemma isConnected_head_last (contour : list Point) :
  isConnected contour
  = match head contour, last contour with
    | Some f, Some l =>
        Ret (bool_decide (int_abs (int_sub (px f) (px l)) <= 1)
             && bool_decide (int_abs (int_sub (py f) (py l)) <= 1))
    | _, _ => Fault
    end.
Proof.
  unfold isConnected. rewrite vec_at_head, vec_at_last.
  destruct (head contour); simpl; [|reflexivity]. by destruct (last contour).
Qed.

Lemma int_abs_sub_small (a b : Z) :
  Z.abs (a - b) < 2 ^ 31 -> int_abs (int_sub a b) <= 1 <-> Z.abs (a - b) <= 1.
Proof.
  intros Hab. unfold int_abs, int_sub.
  rewrite (int_wrap_id (a - b)) by lia. rewrite int_wrap_id by lia. reflexivity.
Qed.

(** X1.  [isConnected] compares the first and the last point of the
    contour: it faults on the empty contour only, accepts every
    single-point contour, and gives the same answer for the contour
    traversed backwards.  A longer contour whose two ends are less than
    [2^31] apart in each coordinate, as any two points of one image are,
    is accepted exactly when the ends differ by at most 1 in each
    coordinate.  The differences are [int]s: two ends at [INT_MAX] and
    [INT_MIN] count as neighbours. *)
Theorem isConnected_ends :
  (forall contour, isConnected contour = Fault <-> contour = [])
  /\ (forall p, isConnected [p] = Ret true)
  /\ (forall p mid q,
        Z.abs (px p - px q) < 2 ^ 31 -> Z.abs (py p - py q) < 2 ^ 31 ->
        isConnected (p :: mid ++ [q])
        = Ret (bool_decide (Z.abs (px p - px q) <= 1 /\ Z.abs (py p - py q) <= 1)))
  /\ (forall contour, isConnected (reverse contour) = isConnected contour)
  /\ isConnected [mkPoint (2 ^ 31 - 1) 0; mkPoint (- 2 ^ 31) 0] = Ret true.
Proof.
  pose proof isConnected_head_last as Hends.
  split; [|split; [|split; [|split]]].
  - intros contour. rewrite Hends. destruct contour as [|p ps]; [done|].
    simpl head. destruct (last (p :: ps)) eqn:E; [done|].
    apply last_None in E. done.
  - intros p. rewrite Hends. simpl. unfold int_sub. rewrite !Z.sub_diag. reflexivity.
  - intros p mid q Hx Hy. rewrite Hends. simpl head.
    change (p :: mid ++ [q]) with ((p :: mid) ++ [q]).
    rewrite (last_snoc q (p :: mid)). rewrite bool_decide_and. f_equal.
    f_equal; apply bool_decide_ext; by apply int_abs_sub_small.
  - intros contour. rewrite !Hends, head_reverse, last_reverse.
    destruct (head contour) as [f|], (last contour) as [l|]; try reflexivity.
    by rewrite (int_abs_sub_sym (px l)), (int_abs_sub_sym (py l)).
  - by vm_compute.
Qed.

Lemma isConnected_ends_witness :
  isConnected [mkPoint 3 4; mkPoint 9 9; mkPoint 4 5] = Ret true
  /\ isConnected [mkPoint 3 4; mkPoint 9 9; mkPoint 5 5] = Ret false.
Proof.
  destruct isConnected_ends as (_ & _ & H & _). split.
  - refine (eq_trans (H (mkPoint 3 4) [mkPoint 9 9] (mkPoint 4 5) _ _) _);
      [simpl; lia.. | reflexivity].
  - refine (eq_trans (H (mkPoint 3 4) [mkPoint 9 9] (mkPoint 5 5) _ _) _);
      [simpl; lia.. | reflexivity].
Defined.

Lemma foldr_min_const (x0 : Z) (l : list Z) :
  Forall (fun x => x = x0) l -> foldr Z.min x0 l = x0.
Proof. induction 1 as [|x l -> _ IH]; simpl; [reflexivity|]. rewrite IH. lia. Qed.

Lemma foldr_max_const (x0 : Z) (l : list Z) :
  Forall (fun x => x = x0) l -> foldr Z.max x0 l = x0.
Proof. induction 1 as [|x l -> _ IH]; simpl; [reflexivity|]. rewrite IH. lia. Qed.

(** X2.  A contour that stays in one column or in one row, a straight
    one-pixel stroke of any length, is never kept, whatever the image
    size: with a side of 1 the ratio bound caps the other side at 10 and
    the area stays below 15. *)
Theorem keep_rejects_straight_strokes (contour : list Point) (imgSize : Size) (c : Z) :
  Forall (fun p => px p = c) contour \/ Forall (fun p => py p = c) contour ->
  keep contour imgSize = Ret false.
Proof.
  intros Hline. unfold keep.
  destruct (hasTextRatio contour imgSize) eqn:E; [exfalso|reflexivity].
  apply hasTextRatio_int in E. cbv zeta in E. destruct E as (E1 & E2 & E3 & _).
  pose proof (boundingRect_nonneg contour) as [Hw Hh].
  destruct contour as [|p ps]; [vm_compute in E3; by apply E3|].
  assert (Hside : r_width (boundingRect (p :: ps)) = 1
                  \/ r_height (boundingRect (p :: ps)) = 1).
  { simpl. destruct Hline as [Hx|Hy]; [left|right].
    - apply Forall_cons in Hx as [Hp Hx]. rewrite Hp.
      rewrite (foldr_min_const c (px <$> ps)), (foldr_max_const c (px <$> ps))
        by (apply Forall_fmap; exact Hx).
      lia.
    - apply Forall_cons in Hy as [Hp Hy]. rewrite Hp.
      rewrite (foldr_min_const c (py <$> ps)), (foldr_max_const c (py <$> ps))
        by (apply Forall_fmap; exact Hy).
      lia. }
  unfold int_mul in E3.
  destruct Hside as [Hs|Hs]; rewrite Hs in *; rewrite int_wrap_id in E3; lia.
Qed.

Lemma keep_rejects_straight_strokes_witness :
  keep ((fun i => mkPoint 7 (Z.of_nat i)) <$> seq 0 40) (mkSize 300 300) = Ret false.
Proof.
  apply (keep_rejects_straight_strokes _ _ 7). left.
  apply (bool_decide_unpack _). by vm_compute.
Defined.

Lemma foldr_min_shift (d a : Z) (l : list Z) :
  foldr Z.min (a + d) ((fun x => x + d) <$> l) = foldr Z.min a l + d.
Proof.
  induction l as [|b l IH]; [reflexivity|].
  rewrite fmap_cons. cbn [foldr]. rewrite IH. lia.
Qed.

Lemma foldr_max_shift (d a : Z) (l : list Z) :
  foldr Z.max (a + d) ((fun x => x + d) <$> l) = foldr Z.max a l + d.
Proof.
  induction l as [|b l IH]; [reflexivity|].
  rewrite fmap_cons. cbn [foldr]. rewrite IH. lia.
Qed.

Lemma boundingRect_shift (dx dy : Z) (p : Point) (ps : list Point) :
  boundingRect (shift dx dy (p :: ps))
  = mkRect (r_x (boundingRect (p :: ps)) + dx) (r_y (boundingRect (p :: ps)) + dy)
      (r_width (boundingRect (p :: ps))) (r_height (boundingRect (p :: ps))).
Proof.
  unfold shift. simpl.
  rewrite <- !list_fmap_compose.
  change (px ∘ (fun q => mkPoint (px q + dx) (py q + dy))) with ((fun x => x + dx) ∘ px).
  change (py ∘ (fun q => mkPoint (px q + dx) (py q + dy))) with ((fun y => y + dy) ∘ py).
  rewrite !list_fmap_compose, !foldr_min_shift, !foldr_max_shift.
  f_equal; lia.
Qed.

(** X3.  The classifier does not depend on where the contour lies: moving
    every point by the same offset changes neither [hasTextRatio] nor
    [isConnected] nor [keep]. *)
Theorem keep_shift (dx dy : Z) (contour : list Point) (imgSize : Size) :
  hasTextRatio (shift dx dy contour) imgSize = hasTextRatio contour imgSize
  /\ isConnected (shift dx dy contour) = isConnected contour
  /\ keep (shift dx dy contour) imgSize = keep contour imgSize.
Proof.
  assert (H1 : hasTextRatio (shift dx dy contour) imgSize = hasTextRatio contour imgSize).
  { destruct contour as [|p ps]; [reflexivity|].
    unfold hasTextRatio. rewrite boundingRect_shift. reflexivity. }
  assert (H2 : isConnected (shift dx dy contour) = isConnected contour).
  { rewrite !isConnected_head_last. unfold shift.
    rewrite fmap_last. destruct contour as [|p ps]; [reflexivity|]. simpl head.
    destruct (last (p :: ps)) as [l|]; simpl; [|reflexivity].
    unfold int_sub.
    replace (px p + dx - (px l + dx)) with (px p - px l) by lia.
    replace (py p + dy - (py l + dy)) with (py p - py l) by lia.
    reflexivity. }
  split; [exact H1|]. split; [exact H2|]. unfold keep. by rewrite H1, H2.
Qed.

(** X4.  The image size enters the classifier only through the upper area
    bound.  As long as the image areas are values of [int], the type in
    which line 52 multiplies, a contour kept in one image is kept in
    every image of at least that area, and no contour is kept in an image
    of area below 75. *)
Theorem keep_image_area (contour : list Point) (imgSize imgSize' : Size) :
  in_int (s_width imgSize * s_height imgSize) ->
  (keep contour imgSize = Ret true ->
   in_int (s_width imgSize' * s_height imgSize') ->
   s_width imgSize * s_height imgSize <= s_width imgSize' * s_height imgSize' ->
   keep contour imgSize' = Ret true)
  /\ (s_width imgSize * s_height imgSize < 75 -> keep contour imgSize = Ret false).
Proof.
  intros Hrange. unfold keep. split.
  - destruct (hasTextRatio contour imgSize) eqn:E; [|discriminate].
    intros Hc Hrange' Harea. apply hasTextRatio_int in E. cbv zeta in E.
    assert (hasTextRatio contour imgSize' = true) as ->; [|exact Hc].
    apply hasTextRatio_int. cbv zeta.
    unfold int_mul at 3 in E. unfold int_mul at 3.
    rewrite int_wrap_id in E by exact Hrange. rewrite int_wrap_id by exact Hrange'. lia.
  - intros Hsmall. destruct (hasTextRatio contour imgSize) eqn:E; [|reflexivity].
    apply hasTextRatio_int in E. cbv zeta in E.
    unfold int_mul at 3 in E. rewrite int_wrap_id in E by exact Hrange. lia.
Qed.

Lemma keep_image_area_witness :
  keep (outline 10 10 30) (mkSize 400 300) = Ret true
  /\ keep (outline 10 10 30) (mkSize 8 9) = Ret false.
Proof.
  split.
  - apply (proj1 (keep_image_area (outline 10 10 30) sample_size (mkSize 400 300)
                   ltac:(unfold in_int; simpl; lia))).
    + by vm_compute.
    + unfold in_int. simpl. lia.
    + simpl. lia.
  - apply (proj2 (keep_image_area (outline 10 10 30) (mkSize 8 9) sample_size
                   ltac:(unfold in_int; simpl; lia))).
    simpl. lia.
Defined.

(** ** The descendant count *)

Lemma vec_at_down_links (hier hier' : list Vec4i) (i : Z) :
  down_links <$> hier = down_links <$> hier' ->
  match vec_at hier i, vec_at hier' i with
  | Ret h, Ret h' => h0 h = h0 h' /\ h2 h = h2 h'
  | Fault, Fault => True
  | _, _ => False
  end.
Proof.
  intros Heq. unfold vec_at. destruct (decide (0 <= i)); [|done].
  pose proof (f_equal (fun l => l !! Z.to_nat i) Heq) as Hl. simpl in Hl.
  rewrite !list_lookup_fmap in Hl.
  destruct (hier !! Z.to_nat i) as [h|], (hier' !! Z.to_nat i) as [h'|];
    simpl in Hl; try done.
  injection Hl as ? ?. done.
Qed.

Lemma siblings_loop_down_links (contours : list (list Point)) (hier hier' : list Vec4i)
    (imgSize : Size) (rec rec' : Z -> res Z) (fuel : nat) :
  down_links <$> hier = down_links <$> hier' ->
  (forall s, rec s = rec' s) ->
  forall (next count : Z),
    siblings_loop contours hier imgSize rec fuel next count
    = siblings_loop contours hier' imgSize rec' fuel next count.
Proof.
  intros Heq Hrec. induction fuel as [|fuel IH]; intros next count; simpl; [done|].
  destruct (decide (next > 0)); [|done].
  destruct (vec_at contours next) as [c| |]; simpl; try done.
  destruct (keep c imgSize) as [k| |]; simpl; try done.
  rewrite <- Hrec. destruct (rec next) as [sub| |]; simpl; try done.
  pose proof (vec_at_down_links hier hier' next Heq) as Hl.
  destruct (vec_at hier next) as [h| |], (vec_at hier' next) as [h'| |];
    simpl; try done.
  destruct Hl as [-> _]. apply IH.
Qed.

(** X6.  [countChildren] reads only the next-sibling and first-child
    links: two hierarchies that agree on [[0]] and [[2]] of every node
    give the same result, whatever their previous-sibling and parent
    links are. *)
Theorem countChildren_reads_down_links (contours : list (list Point))
    (hier hier' : list Vec4i) (imgSize : Size) (fuel : nat) (index : Z) :
  down_links <$> hier = down_links <$> hier' ->
  countChildren contours hier imgSize fuel index
  = countChildren contours hier' imgSize fuel index.
Proof.
  intros Heq. revert index. induction fuel as [|fuel IH]; intros index; simpl; [done|].
  pose proof (vec_at_down_links hier hier' index Heq) as Hl.
  destruct (vec_at hier index) as [hi| |], (vec_at hier' index) as [hi'| |];
    simpl; try done.
  destruct Hl as [_ Hl]. rewrite <- Hl.
  destruct (decide (h2 hi < 0)); [done|].
  destruct (vec_at contours (h2 hi)) as [c| |]; simpl; try done.
  destruct (keep c imgSize) as [k| |]; simpl; try done.
  rewrite <- IH. destruct (countChildren contours hier imgSize fuel (h2 hi)) as [sub| |];
    simpl; try done.
  pose proof (vec_at_down_links hier hier' (h2 hi) Heq) as Hc.
  destruct (vec_at hier (h2 hi)) as [hc| |], (vec_at hier' (h2 hi)) as [hc'| |];
    simpl; try done.
  destruct Hc as [<- _].
  rewrite <- (siblings_loop_down_links contours hier hier' imgSize _ _ fuel Heq IH).
  destruct (siblings_loop contours hier imgSize _ fuel (h0 hc) _) as [n1| |];
    simpl; try done.
  rewrite <- (siblings_loop_down_links contours hier hier' imgSize _ _ fuel Heq IH).
  done.
Qed.

Lemma countChildren_reads_down_links_witness :
  countChildren siblings_contours siblings_hier sample_size 2 1
  = countChildren siblings_contours
      [mkVec4i 1 7 (-1) 9; mkVec4i (-1) (-3) 2 2; mkVec4i 3 3 (-1) 0; mkVec4i (-1) 1 (-1) 5]
      sample_size 2 1.
Proof. apply (countChildren_reads_down_links siblings_contours). reflexivity. Defined.

(** ** The selection loop *)

Lemma select_from_sublist (contours : list (list Point)) (hier : list Vec4i)
    (edgesSize : Size) (fuel : nat) (cs : list (list Point)) :
  forall (i0 : Z) (l : list (list Point * Rect)),
    select_from contours hier edgesSize fuel i0 cs = Ret l ->
    sublist l ((fun c => (c, boundingRect c)) <$> cs).
Proof.
  induction cs as [|c cs IH]; intros i0 l; simpl.
  - intros [= <-]. constructor.
  - intros Hs. apply bind_Ret in Hs as ([[sel p] nc] & _ & Hs).
    apply bind_Ret in Hs as (rest & Hrest%IH & Hs). injection Hs as <-.
    destruct sel; by constructor.
Qed.

(** X7.  The kept regions are the input contours with some left out:
    they come in the order of the contours, each at most once per
    occurrence, each paired with its own bounding rectangle, and never
    more than there are contours. *)
Theorem keptRegions_sublist (contours : list (list Point)) (hier : list Vec4i)
    (edgesSize : Size) (fuel : nat) (kept : list (list Point * Rect)) :
  keptRegions contours hier edgesSize fuel = Ret kept ->
  sublist kept ((fun c => (c, boundingRect c)) <$> contours)
  /\ (length kept <= length contours)%nat.
Proof.
  intros Hk. apply select_from_sublist in Hk. split; [exact Hk|].
  apply sublist_length in Hk. by rewrite length_fmap in Hk.
Qed.

Lemma keptRegions_sublist_witness :
  exists kept,
    keptRegions nested_contours nested_hier sample_size 3 = Ret kept
    /\ (length kept <= 3)%nat.
Proof.
  eexists. split; [by vm_compute|].
  apply (keptRegions_sublist nested_contours nested_hier sample_size 3). by vm_compute.
Defined.

(** X8.  How the parent link decides the selection.  A contour whose
    parent link is not positive (a top-level contour, or a child of
    contour 0) is selected exactly when it is classified keep and counts
    at most two descendants.  A contour whose parent has a positive index
    and is not classified keep is never selected. *)
Theorem select_one_by_parent (contours : list (list Point)) (hier : list Vec4i)
    (imgSize : Size) (fuel : nat) (i : Z) (hi : Vec4i) (sel : bool)
    (parent numChildren : Z) :
  vec_at hier i = Ret hi ->
  select_one contours hier imgSize fuel i = Ret (sel, parent, numChildren) ->
  (h3 hi <= 0 ->
   parent = h3 hi
   /\ exists c, vec_at contours i = Ret c
        /\ (sel = true <-> keep c imgSize = Ret true /\ numChildren <= 2))
  /\ (forall c, 0 < h3 hi -> vec_at contours (h3 hi) = Ret c ->
      keep c imgSize = Ret false -> parent = h3 hi /\ sel = false).
Proof.
  intros Hi H. unfold select_one in H. rewrite Hi in H. simpl in H.
  apply bind_Ret in H as (p & Hp & H).
  apply bind_Ret in H as (n & Hn & H).
  apply bind_Ret in H as (c & Hc & H).
  apply bind_Ret in H as (k & Hk & H).
  injection H as <- <- <-. split.
  - intros Htop.
    assert (p = h3 hi) as ->.
    { destruct fuel; simpl in Hp; destruct (decide (h3 hi > 0)); try lia;
        by injection Hp. }
    split; [reflexivity|]. exists c. split; [exact Hc|]. rewrite Hk.
    rewrite !andb_true_iff, negb_true_iff, andb_false_iff, !bool_decide_eq_true,
      !bool_decide_eq_false.
    split; [intros [[-> _] ?]; done|].
    intros [[= ->] ?]. repeat split; auto; left; lia.
  - intros c' Hpos Hc' Hk'.
    assert (p = h3 hi) as ->.
    { destruct fuel; simpl in Hp; destruct (decide (h3 hi > 0)); try lia;
        [discriminate|].
      rewrite Hc' in Hp. simpl in Hp. rewrite Hk' in Hp. simpl in Hp. by injection Hp. }
    split; [reflexivity|].
    rewrite (bool_decide_eq_true_2 (h3 hi > 0)) by lia.
    destruct k; [|reflexivity]. simpl. destruct (bool_decide (n <= 2)); reflexivity.
Qed.

Lemma select_one_by_parent_witness :
  exists sel parent n,
    select_one stroke_contours nested_hier sample_size 3 2 = Ret (sel, parent, n)
    /\ parent = 1 /\ sel = false.
Proof.
  exists false, 1, 0. split; [by vm_compute|].
  destruct (select_one_by_parent stroke_contours nested_hier sample_size 3 2
              (mkVec4i (-1) (-1) (-1) 1) false 1 0) as [_ H];
    [reflexivity | by vm_compute |].
  apply (H ((fun i => mkPoint (10 + Z.of_nat i) 10) <$> seq 0 31));
    [simpl; lia | reflexivity | by vm_compute].
Defined.

Lemma vec_at_lookup {A : Type} (l : list A) (n : nat) (a : A) :
  l !! n = Some a -> vec_at l (Z.of_nat n) = Ret a.
Proof.
  intros Hn. unfold vec_at. rewrite decide_True by lia. by rewrite Nat2Z.id, Hn.
Qed.

Lemma select_from_flat (contours : list (list Point)) (hier : list Vec4i)
    (imgSize : Size) (fuel : nat) :
  length hier = length contours ->
  Forall (fun h => h2 h < 0 /\ h3 h <= 0) hier ->
  (0 < fuel)%nat ->
  forall (cs : list (list Point)) (n0 : nat),
    drop n0 contours = cs ->
    select_from contours hier imgSize fuel (Z.of_nat n0) cs
    = Ret ((fun c => (c, boundingRect c))
             <$> filter (fun c => keep c imgSize = Ret true) cs).
Proof.
  intros Hlen Hflat Hfuel. induction cs as [|c cs IH]; intros n0 Hdrop; [reflexivity|].
  assert (contours !! n0 = Some c) as Hc.
  { rewrite <- (Nat.add_0_r n0), <- lookup_drop, Hdrop. reflexivity. }
  assert (drop (S n0) contours = cs) as Hdrop'.
  { replace (S n0) with (n0 + 1)%nat by lia. rewrite <- drop_drop, Hdrop. reflexivity. }
  destruct (lookup_lt_is_Some_2 hier n0) as [hi Hhi].
  { rewrite Hlen. by apply lookup_lt_Some in Hc. }
  destruct (Forall_lookup_1 _ _ _ _ Hflat Hhi) as [Hleaf Htop].
  destruct (keep_total c imgSize) as [k Hk].
  assert (select_one contours hier imgSize fuel (Z.of_nat n0) = Ret (k, h3 hi, 0)) as Hone.
  { unfold select_one. rewrite (vec_at_lookup _ _ _ Hhi). simpl.
    destruct fuel as [|fuel]; [lia|]. simpl.
    rewrite decide_False by lia. simpl.
    rewrite (vec_at_lookup _ _ _ Hhi). simpl. rewrite decide_True by lia. simpl.
    rewrite (vec_at_lookup _ _ _ Hc). simpl. rewrite Hk. simpl.
    rewrite (bool_decide_eq_false_2 (h3 hi > 0)) by lia.
    by destruct k. }
  cbn [select_from]. rewrite Hone. simpl.
  replace (Z.of_nat n0 + 1) with (Z.of_nat (S n0)) by lia.
  rewrite (IH (S n0) Hdrop'). simpl. rewrite filter_cons.
  destruct (decide (keep c imgSize = Ret true)) as [Hyes|Hno].
  - rewrite Hk in Hyes. injection Hyes as ->. reflexivity.
  - destruct k; [by rewrite Hk in Hno | reflexivity].
Qed.

(** X19.  On a hierarchy without nesting, where no contour has a child
    and none has a parent of positive index, the selection loop is the
    classifier: the kept regions are exactly the contours classified
    keep, in order, each with its bounding rectangle. *)
Theorem keptRegions_flat (contours : list (list Point)) (hier : list Vec4i)
    (imgSize : Size) (fuel : nat) :
  length hier = length contours ->
  Forall (fun h => h2 h < 0 /\ h3 h <= 0) hier ->
  (0 < fuel)%nat ->
  keptRegions contours hier imgSize fuel
  = Ret ((fun c => (c, boundingRect c))
           <$> filter (fun c => keep c imgSize = Ret true) contours).
Proof.
  intros Hlen Hflat Hfuel.
  exact (select_from_flat contours hier imgSize fuel Hlen Hflat Hfuel contours 0 eq_refl).
Qed.

Lemma keptRegions_flat_witness :
  keptRegions stroke_contours
    [mkVec4i 1 (-1) (-1) (-1); mkVec4i 2 0 (-1) (-1); mkVec4i (-1) 1 (-1) (-1)]
    sample_size 1
  = Ret [(outline 160 160 3, boundingRect (outline 160 160 3));
         (outline 15 15 3, boundingRect (outline 15 15 3))].
Proof.
  rewrite keptRegions_flat.
  - by vm_compute.
  - reflexivity.
  - apply (bool_decide_unpack _). by vm_compute.
  - lia.
Defined.

(** ** The padded image *)

Lemma luma_black : luma black = 0.
Proof. by vm_compute. Qed.

Lemma nth_replicate_same {A : Type} (n i : nat) (x : A) : nth i (replicate n x) x = x.
Proof. revert i. induction n as [|n IH]; intros [|i]; simpl; auto. Qed.

Lemma nth_padded_row (n i : nat) (row : list Vec3b) :
  nth i (replicate n black ++ row ++ replicate n black) black
  = if decide (n <= i)%nat then nth (i - n) row black else black.
Proof.
  destruct (decide (n <= i)%nat) as [Hle|Hlt].
  - rewrite app_nth2; rewrite length_replicate; [|lia].
    destruct (decide (i - n < length row)%nat).
    + by rewrite app_nth1.
    + rewrite app_nth2 by lia. rewrite (nth_overflow row) by lia.
      apply nth_replicate_same.
  - rewrite app_nth1 by (rewrite length_replicate; lia). apply nth_replicate_same.
Qed.

Lemma copyMakeBorder_nth (src : Mat3) (n i j : nat) :
  nth i (nth j (copyMakeBorder src n) []) black
  = if decide (n <= i /\ n <= j)%nat then nth (i - n) (nth (j - n) src []) black
    else black.
Proof.
  unfold copyMakeBorder. set (w := (length (hd [] src) + 2 * n)%nat).
  set (f := fun row : list Vec3b => replicate n black ++ row ++ replicate n black).
  assert (Hblank : forall k m, nth i (nth k (replicate m (replicate w black)) []) black
                               = black).
  { intros k m. rewrite (nth_lookup (replicate m _)).
    destruct (replicate m (replicate w black) !! k) as [row|] eqn:E; simpl.
    - apply lookup_replicate in E as [-> _]. apply nth_replicate_same.
    - by destruct i. }
  destruct (decide (n <= j)%nat) as [Hj|Hj].
  - rewrite app_nth2; rewrite length_replicate; [|lia].
    destruct (decide (j - n < length src)%nat) as [Hin|Hout].
    + rewrite app_nth1 by (rewrite length_fmap; lia).
      rewrite (nth_lookup (f <$> src)), list_lookup_fmap, (nth_lookup src).
      destruct (src !! (j - n)%nat) as [row|] eqn:E; simpl.
      * unfold f. rewrite nth_padded_row.
        destruct (decide (n <= i)%nat); destruct (decide _); try lia; reflexivity.
      * apply lookup_ge_None in E. lia.
    + rewrite app_nth2 by (rewrite length_fmap; lia). rewrite Hblank.
      rewrite (nth_overflow src) by lia.
      destruct (decide _); [by destruct (i - n)%nat | reflexivity].
  - rewrite app_nth1 by (rewrite length_replicate; lia). rewrite Hblank.
    destruct (decide _); [lia | reflexivity].
Qed.

Lemma copyMakeBorder_rows (src : Mat3) (n : nat) :
  rows (copyMakeBorder src n) = rows src + 2 * Z.of_nat n.
Proof.
  unfold rows, copyMakeBorder. rewrite !length_app, !length_replicate, length_fmap. lia.
Qed.

Lemma copyMakeBorder_cols (src : Mat3) (n : nat) :
  cols (copyMakeBorder src n) = cols src + 2 * Z.of_nat n.
Proof.
  unfold cols, copyMakeBorder. destruct n as [|n].
  - destruct src as [|row src]; simpl; [reflexivity|].
    rewrite app_nil_r. lia.
  - simpl. rewrite length_replicate. lia.
Qed.

Lemma intensity_padded (src : Mat3) (n : nat) (x y : Z) :
  rectangular src ->
  intensity (copyMakeBorder src n) (mkPoint (x + Z.of_nat n) (y + Z.of_nat n))
  = intensity src (mkPoint x y).
Proof.
  intros Hrect. unfold intensity. simpl.
  rewrite copyMakeBorder_rows, copyMakeBorder_cols.
  destruct (decide (x + Z.of_nat n < 0 \/ _)) as [Hout|Hin].
  - destruct (decide _) as [_|Hin]; [reflexivity | lia].
  - unfold mat_at. simpl. rewrite copyMakeBorder_nth.
    destruct (decide (x < 0 \/ _)) as [Hout|Hin'].
    + destruct (decide (_ /\ _)%nat) as [[Hi Hj]|_]; [|apply luma_black].
      assert (0 <= x /\ 0 <= y) as [Hx Hy] by lia.
      replace (Z.to_nat (x + Z.of_nat n) - n)%nat with (Z.to_nat x) by lia.
      replace (Z.to_nat (y + Z.of_nat n) - n)%nat with (Z.to_nat y) by lia.
      rewrite (nth_lookup src).
      destruct (src !! Z.to_nat y) as [row|] eqn:E; simpl.
      * assert (length row = length (hd [] src)) as Hlen.
        { eapply (Forall_lookup_1 _ _ _ _ Hrect); eauto. }
        apply lookup_lt_Some in E. unfold cols, rows in *.
        rewrite nth_overflow by lia. apply luma_black.
      * destruct (Z.to_nat x); apply luma_black.
    + destruct (decide (_ /\ _)%nat) as [_|Hno]; [|lia].
      replace (Z.to_nat (x + Z.of_nat n) - n)%nat with (Z.to_nat x) by lia.
      replace (Z.to_nat (y + Z.of_nat n) - n)%nat with (Z.to_nat y) by lia.
      reflexivity.
Qed.

Lemma foldl_add_intensity (f g : Point -> Z) (h : Point -> Point) (l : list Point) :
  (forall p, f (h p) = g p) ->
  forall acc,
    foldl (fun acc point => add acc (of_int (f point))) acc (h <$> l)
    = foldl (fun acc point => add acc (of_int (g point))) acc l.
Proof.
  intros Hfg. induction l as [|p l IH]; intros acc; simpl; [reflexivity|].
  rewrite Hfg. apply IH.
Qed.

(** X9.  The padded image is the source moved by the border width:
    sampling [img] at a point moved by [(n, n)] gives what sampling [src]
    at the point gives, also outside the source, where both give 0.  So
    the foreground mean, which samples [src] at the contour's points, is
    the mean of [img] over the contour moved by the border width. *)
Theorem intensity_copyMakeBorder (src : Mat3) (n : nat) :
  rectangular src ->
  (forall x y,
     intensity (copyMakeBorder src n) (mkPoint (x + Z.of_nat n) (y + Z.of_nat n))
     = intensity src (mkPoint x y))
  /\ (forall contour,
        fgThresh_of src contour
        = fgThresh_of (copyMakeBorder src n)
            (shift (Z.of_nat n) (Z.of_nat n) contour)).
Proof.
  intros Hrect. split; [intros x y; by apply intensity_padded|].
  intros contour. unfold fgThresh_of, shift. rewrite length_fmap. f_equal.
  symmetry. apply foldl_add_intensity. intros [x y]. simpl. by apply intensity_padded.
Qed.

Lemma intensity_copyMakeBorder_witness :
  intensity (copyMakeBorder halves_src 50) (mkPoint 53 51) = 10
  /\ intensity (copyMakeBorder halves_src 50) (mkPoint 3 1) = 0.
Proof.
  destruct (intensity_copyMakeBorder halves_src 50) as [H _].
  - apply (bool_decide_unpack _). by vm_compute.
  - split.
    + transitivity (intensity halves_src (mkPoint 3 1)); [exact (H 3 1) | by vm_compute].
    + transitivity (intensity halves_src (mkPoint (-47) (-49)));
        [exact (H (-47) (-49)) | by vm_compute].
Defined.

(** ** The pixels of the mask *)

Lemma mat_get_set (W H : nat) (m m' : Mat1) (p : Point) (v : Z) (x y : Z) :
  has_shape W H m -> mat_set m p v = Ret m' ->
  mat_get m' x y = if decide (mkPoint x y = p) then Some v else mat_get m x y.
Proof.
  intros Hm. unfold mat_set. destruct (decide _) as [[Hx Hy]|]; [|discriminate].
  intros [= <-]. destruct p as [a b]. simpl in *.
  rewrite (has_shape_rows W H m Hm) in Hy.
  rewrite (has_shape_cols W H m Hm) in Hx by lia.
  destruct Hm as [Hlen Hrows].
  destruct (lookup_lt_is_Some_2 m (Z.to_nat b)) as [row Hrow]; [lia|].
  assert (length row = W) as Hw by (eapply (Forall_lookup_1 _ _ _ _ Hrows); eauto).
  rewrite (nth_lookup_Some _ _ _ _ Hrow).
  unfold mat_get. destruct (decide (0 <= x /\ 0 <= y)) as [[Hx0 Hy0]|Hneg].
  - rewrite list_lookup_insert.
    destruct (decide (Z.to_nat b = Z.to_nat y /\ _)) as [[Hb _]|Hb].
    + assert (y = b) as -> by lia. simpl. rewrite list_lookup_insert, Hrow. simpl.
      destruct (decide (Z.to_nat a = Z.to_nat x /\ _)) as [[Ha _]|Ha].
      * assert (x = a) as -> by lia. by rewrite decide_True.
      * rewrite decide_False; [reflexivity|]. intros [= ->]. lia.
    + rewrite decide_False; [reflexivity|]. intros [= -> ->]. lia.
  - rewrite decide_False; [reflexivity|]. intros [= -> ->]. lia.
Qed.

Lemma store_all_get (W H : nat) (f : Point -> Z) (writes : list (Point * Z)) :
  forall (m m' : Mat1),
    has_shape W H m -> store_all m writes = Ret m' ->
    Forall (fun w => w.2 = f w.1) writes ->
    forall x y,
      mat_get m' x y
      = if decide (mkPoint x y ∈ writes.*1) then Some (f (mkPoint x y))
        else mat_get m x y.
Proof.
  induction writes as [|[p v] writes IH]; intros m m' Hm Hs Hf x y.
  - injection Hs as <-. destruct (decide _) as [Hin|_]; [|reflexivity].
    by apply elem_of_nil in Hin.
  - apply Forall_cons in Hf as [Hv Hf]. simpl in Hv, Hs.
    apply bind_Ret in Hs as (m1 & H1 & Hs).
    rewrite (IH m1 m' (mat_set_shape _ _ _ _ _ _ Hm H1) Hs Hf x y).
    rewrite (mat_get_set W H m m1 p v x y Hm H1). rewrite fmap_cons. cbn [fst].
    destruct (decide (mkPoint x y ∈ writes.*1)) as [Hin|Hin];
      destruct (decide (mkPoint x y ∈ p :: writes.*1)) as [Hin'|Hin'].
    + reflexivity.
    + exfalso. apply Hin'. by right.
    + apply elem_of_cons in Hin' as [->|?]; [|done].
      rewrite decide_True by reflexivity. by rewrite Hv.
    + rewrite decide_False; [reflexivity|]. intros <-. apply Hin'. by left.
Qed.

Lemma fill_writes_elem (img : Mat3) (box : Rect) (fgThresh : double) (fg bg : Z)
    (p : Point) (v : Z) :
  (p, v) ∈ fill_writes img box fgThresh fg bg
  <-> in_box box (px p) (py p) /\ fill_guard img (px p) (py p) = true
      /\ v = if gtb (of_int (intensity img p)) fgThresh then bg else fg.
Proof.
  unfold fill_writes, in_box. split.
  - intros H.
    apply list_elem_of_bind in H as (x & H & Hx%elem_of_seqZ).
    apply list_elem_of_bind in H as (y & H & Hy%elem_of_seqZ).
    destruct (fill_guard img x y) eqn:Hg; [|by apply elem_of_nil in H].
    apply list_elem_of_singleton in H. injection H as -> ->. simpl. done.
  - intros (Hbox & Hg & ->). destruct p as [x y]. simpl in *.
    apply list_elem_of_bind. exists x. split; [|apply elem_of_seqZ; lia].
    apply list_elem_of_bind. exists y. split; [|apply elem_of_seqZ; lia].
    rewrite Hg. by apply list_elem_of_singleton.
Qed.

Lemma fill_writes_points (img : Mat3) (box : Rect) (fgThresh : double) (fg bg : Z)
    (x y : Z) :
  mkPoint x y ∈ (fill_writes img box fgThresh fg bg).*1
  <-> in_box box x y /\ fill_guard img x y = true.
Proof.
  rewrite list_elem_of_fmap. split.
  - intros ([p v] & Hp & Hin). simpl in Hp. subst p.
    apply fill_writes_elem in Hin as (? & ? & _). done.
  - intros [Hbox Hg].
    exists (mkPoint x y,
            if gtb (of_int (intensity img (mkPoint x y))) fgThresh then bg else fg).
    split; [reflexivity|]. by apply fill_writes_elem.
Qed.

Lemma fill_loop_get (W H : nat) (img : Mat3) (box : Rect) (fgThresh : double)
    (fg bg : Z) (filter filter' : Mat1) (x y : Z) :
  has_shape W H filter ->
  store_all filter (fill_writes img box fgThresh fg bg) = Ret filter' ->
  (in_box box x y /\ fill_guard img x y = true ->
   mat_get filter' x y
   = Some (if gtb (of_int (intensity img (mkPoint x y))) fgThresh then bg else fg))
  /\ (~ (in_box box x y /\ fill_guard img x y = true) ->
      mat_get filter' x y = mat_get filter x y).
Proof.
  intros Hm Hs.
  rewrite (store_all_get W H
             (fun p => if gtb (of_int (intensity img p)) fgThresh then bg else fg)
             _ filter filter' Hm Hs).
  - split; intros Hc.
    + rewrite decide_True; [reflexivity|]. by apply fill_writes_points.
    + rewrite decide_False; [reflexivity|]. by rewrite fill_writes_points.
  - apply Forall_forall. intros [p v] Hin. by apply fill_writes_elem in Hin as (_ & _ & ->).
Qed.

(** X10.  What the fill loop leaves in the mask.  When all its stores are
    inside the mask, a pixel of the box that passes the guard holds [bg]
    if its luma in the padded image is above the foreground mean and [fg]
    otherwise; every other pixel of the mask is as it was. *)
Theorem fill_loop_pixels (W H : nat) (img : Mat3) (box : Rect) (fgThresh : double)
    (fg bg : Z) (filter filter' : Mat1) :
  has_shape W H filter ->
  store_all filter (fill_writes img box fgThresh fg bg) = Ret filter' ->
  forall x y,
    (in_box box x y -> fill_guard img x y = true ->
     mat_get filter' x y
     = Some (if gtb (of_int (intensity img (mkPoint x y))) fgThresh then bg else fg))
    /\ (~ (in_box box x y /\ fill_guard img x y = true) ->
        mat_get filter' x y = mat_get filter x y).
Proof.
  intros Hm Hs x y.
  destruct (fill_loop_get W H img box fgThresh fg bg filter filter' x y Hm Hs) as [H1 H2].
  split; [intros; apply H1; done | exact H2].
Qed.

Lemma fill_loop_pixels_witness :
  exists filter',
    store_all (mat_fill (mkSize 8 8) 255)
      (fill_writes halves_src halves_box (of_int 100) 0 255) = Ret filter'
    /\ mat_get filter' 3 3 = Some 0 /\ mat_get filter' 3 4 = Some 255
    /\ mat_get filter' 6 6 = Some 255.
Proof.
  eexists. split; [by vm_compute|].
  pose proof (fill_loop_pixels 8 8 halves_src halves_box (of_int 100) 0 255
                (mat_fill (mkSize 8 8) 255) _ (mat_fill_shape (mkSize 8 8) 255)
                ltac:(by vm_compute)) as H.
  split; [|split].
  - destruct (H 3 3) as [H1 _]. rewrite H1; [reflexivity | unfold in_box; simpl; lia | reflexivity].
  - destruct (H 3 4) as [H1 _]. rewrite H1; [reflexivity | unfold in_box; simpl; lia | reflexivity].
  - destruct (H 6 6) as [_ H2]. rewrite H2; [reflexivity|].
    unfold in_box. simpl. lia.
Defined.

Lemma mat_get_fill (sz : Size) (v x y : Z) :
  0 <= x < s_width sz -> 0 <= y < s_height sz -> mat_get (mat_fill sz v) x y = Some v.
Proof.
  intros Hx Hy. unfold mat_get, mat_fill. rewrite decide_True by lia.
  rewrite (proj2 (lookup_replicate _ _ _ _)) by (split; [reflexivity | lia]). simpl.
  apply lookup_replicate. split; [reflexivity | lia].
Qed.

Section MaskPixels.

Context {impl : NthElement}.

Lemma paint_region_get (W H : nat) (src img : Mat3) (filter filter' : Mat1)
    (r : list Point * Rect) (x y : Z) :
  has_shape W H filter -> paint_region src img filter r = Ret filter' ->
  exists bgThresh,
    bgThresh_of (bgs_of src r.2) = Ret bgThresh
    /\ (in_box r.2 x y /\ fill_guard img x y = true ->
        mat_get filter' x y
        = Some (pixel_colour (fgThresh_of src r.1) bgThresh
                  (intensity img (mkPoint x y))))
    /\ (~ (in_box r.2 x y /\ fill_guard img x y = true) ->
        mat_get filter' x y = mat_get filter x y).
Proof.
  unfold paint_region. intros Hm Hp.
  apply bind_Ret in Hp as (bgThresh & Hbg & Hp). exists bgThresh. split; [exact Hbg|].
  unfold pixel_colour. destruct (colors_of _ _) as [fg bg].
  exact (fill_loop_get W H img r.2 _ fg bg filter filter' x y Hm Hp).
Qed.

Lemma paint_regions_frame (W H : nat) (src img : Mat3) (kept : list (list Point * Rect))
    (x y : Z) :
  forall (filter filter' : Mat1),
    has_shape W H filter -> paint_regions src img filter kept = Ret filter' ->
    Forall (fun r => ~ in_box r.2 x y) kept ->
    mat_get filter' x y = mat_get filter x y.
Proof.
  induction kept as [|r kept IH]; intros filter filter' Hm Hp Hout.
  - by injection Hp as <-.
  - apply Forall_cons in Hout as [Hr Hout]. simpl in Hp.
    apply bind_Ret in Hp as (m1 & H1 & Hp).
    rewrite (IH m1 filter' (paint_region_shape _ _ _ _ _ _ _ Hm H1) Hp Hout).
    destruct (paint_region_get W H src img filter m1 r x y Hm H1) as (_ & _ & _ & Hframe).
    apply Hframe. intros [? _]. done.
Qed.

Lemma paint_regions_app (src img : Mat3) (pre post : list (list Point * Rect)) :
  forall (filter : Mat1),
    paint_regions src img filter (pre ++ post)
    = filter' ← paint_regions src img filter pre; paint_regions src img filter' post.
Proof.
  induction pre as [|r pre IH]; intros filter; simpl; [reflexivity|].
  destruct (paint_region src img filter r) as [m1| |]; simpl; [apply IH|done|done].
Qed.

(** X11.  A pixel of the mask that lies in the box of no kept contour
    is 255: painting a region changes nothing outside its box. *)
Theorem textBinary_from_frame (fuel : nat) (src img : Mat3) (edgesSize : Size)
    (contours : list (list Point)) (hierarchy : list Vec4i) (mask : Mat1) (x y : Z) :
  textBinary_from fuel src img edgesSize contours hierarchy = Ret mask ->
  0 <= x < s_width edgesSize -> 0 <= y < s_height edgesSize ->
  Forall (fun c => keep c edgesSize = Ret true -> ~ in_box (boundingRect c) x y)
    contours ->
  mat_get mask x y = Some 255.
Proof.
  unfold textBinary_from. intros Hm Hx Hy Hout.
  apply bind_Ret in Hm as (kept & Hkept & Hm).
  rewrite (paint_regions_frame _ _ src img kept x y _ mask
             (mat_fill_shape edgesSize 255) Hm).
  - by apply mat_get_fill.
  - apply (select_from_kept contours hierarchy edgesSize fuel contours 0) in Hkept;
      [|reflexivity].
    eapply Forall_impl; [exact Hkept|]. intros [c b] (Hin & -> & Hk). simpl in *.
    eapply (proj1 (Forall_forall _ _) Hout); eauto.
Qed.

(** X12.  Regions are painted in the order of the contours, and a later
    region paints over an earlier one: a pixel that passes the guard
    holds the colour given by the last kept region whose box contains
    it, decided by that region's two thresholds and the pixel's luma in
    the padded image. *)
Theorem paint_regions_last_wins (W H : nat) (src img : Mat3) (filter filter' : Mat1)
    (pre post : list (list Point * Rect)) (contour : list Point) (box : Rect)
    (x y : Z) :
  has_shape W H filter ->
  paint_regions src img filter (pre ++ (contour, box) :: post) = Ret filter' ->
  in_box box x y -> fill_guard img x y = true ->
  Forall (fun r => ~ in_box r.2 x y) post ->
  exists bgThresh,
    bgThresh_of (bgs_of src box) = Ret bgThresh
    /\ mat_get filter' x y
       = Some (pixel_colour (fgThresh_of src contour) bgThresh
                 (intensity img (mkPoint x y))).
Proof.
  intros Hm Hp Hbox Hg Hpost. rewrite paint_regions_app in Hp.
  apply bind_Ret in Hp as (m1 & Hpre & Hp). simpl in Hp.
  apply bind_Ret in Hp as (m2 & Hr & Hp).
  pose proof (paint_regions_shape _ _ _ _ _ _ _ Hm Hpre) as Hm1.
  pose proof (paint_region_shape _ _ _ _ _ _ _ Hm1 Hr) as Hm2.
  destruct (paint_region_get W H src img m1 m2 (contour, box) x y Hm1 Hr)
    as (bgThresh & Hbg & Hin & _).
  exists bgThresh. split; [exact Hbg|].
  rewrite (paint_regions_frame W H src img post x y m2 filter' Hm2 Hp Hpost).
  by apply Hin.
Qed.

End MaskPixels.

Lemma textBinary_from_frame_witness :
  exists mask,
    textBinary_from 6 light_src (copyMakeBorder light_src 50) (mkSize 120 120)
      (two_traced []).1 (two_traced []).2 = Ret mask
    /\ mat_get mask 10 10 = Some 255.
Proof.
  eexists. split; [by vm_compute|].
  apply (@textBinary_from_frame sorting_nth_element 6 light_src
           (copyMakeBorder light_src 50) (mkSize 120 120) (two_traced []).1
           (two_traced []).2).
  - by vm_compute.
  - simpl. lia.
  - simpl. lia.
  - apply Forall_cons_2; [|apply Forall_cons_2; [|apply Forall_nil_2]];
      intros _; unfold in_box; intros [[Hx _] _]; vm_compute in Hx; by apply Hx.
Defined.

Lemma paint_regions_last_wins_witness :
  exists filter' bgThresh,
    @paint_regions sorting_nth_element halves_src halves_src (mat_fill (mkSize 8 8) 255)
      ([([mkPoint 1 1], mkRect 0 0 4 4)] ++ ([mkPoint 5 5], halves_box) :: [])
    = Ret filter'
    /\ @bgThresh_of sorting_nth_element (bgs_of halves_src halves_box) = Ret bgThresh
    /\ mat_get filter' 3 3
       = Some (pixel_colour (fgThresh_of halves_src [mkPoint 5 5]) bgThresh
                 (intensity halves_src (mkPoint 3 3))).
Proof.
  eexists.
  destruct (@paint_regions_last_wins sorting_nth_element 8 8 halves_src halves_src
              (mat_fill (mkSize 8 8) 255) _ [([mkPoint 1 1], mkRect 0 0 4 4)] []
              [mkPoint 5 5] halves_box 3 3 (mat_fill_shape (mkSize 8 8) 255)
              ltac:(by vm_compute)) as (bgThresh & Hbg & Hget).
  - unfold in_box. simpl. lia.
  - reflexivity.
  - constructor.
  - exists bgThresh. split; [by vm_compute|]. split; [exact Hbg | exact Hget].
Defined.

(** ** The size of the mask *)

Lemma copyMakeBorder_shape (src : Mat3) (n : nat) :
  rectangular src ->
  has_shape (length (hd [] src) + 2 * n) (length src + 2 * n) (copyMakeBorder src n).
Proof.
  intros Hrect. unfold copyMakeBorder. split.
  - rewrite !length_app, !length_replicate, length_fmap. lia.
  - rewrite !Forall_app. split; [|split].
    + apply Forall_replicate, length_replicate.
    + apply Forall_fmap. eapply Forall_impl; [exact Hrect|]. intros row Hrow. simpl in *.
      rewrite !length_app, !length_replicate. lia.
    + apply Forall_replicate, length_replicate.
Qed.

Lemma channel_shape (k : Vec3b -> Z) (W H : nat) (img : Mat3) :
  has_shape W H img -> has_shape W H (channel k img).
Proof.
  intros [Hlen Hrows]. unfold channel. split; [by rewrite length_map|].
  apply List.Forall_map. eapply Forall_impl; [exact Hrows|].
  intros row Hrow. simpl in *. by rewrite length_map.
Qed.

Lemma mat_or_shape (W H : nat) (a b : Mat1) :
  has_shape W H a -> has_shape W H b -> has_shape W H (mat_or a b).
Proof.
  intros [Ha Hra] [Hb Hrb]. unfold mat_or. split; [rewrite length_zip_with; lia|].
  apply Forall_lookup_2. intros i row Hrow.
  apply lookup_zip_with_Some in Hrow as (x & y & -> & Hx & Hy).
  rewrite length_zip_with.
  rewrite (Forall_lookup_1 _ _ _ _ Hra Hx), (Forall_lookup_1 _ _ _ _ Hrb Hy). lia.
Qed.

(** X13.  The mask has the size of the padded image, not of the source:
    with an edge detector that keeps the size of its input, [textBinary]
    returns a mask 100 columns wider and 100 rows higher than [src]. *)
Theorem textBinary_mask_size (impl : NthElement) (Canny : Mat1 -> Mat1)
    (findContours : Mat1 -> list (list Point) * list Vec4i)
    (fuel : nat) (src : Mat3) (mask : Mat1) :
  (forall W H chan, has_shape W H chan -> has_shape W H (Canny chan)) ->
  rectangular src ->
  textBinary Canny findContours fuel src = Ret mask ->
  has_shape (length (hd [] src) + 100) (length src + 100) mask
  /\ cols mask = cols src + 100 /\ rows mask = rows src + 100.
Proof.
  intros HCanny Hrect. unfold textBinary.
  set (edges := mat_or _ _).
  assert (Hedges : has_shape (length (hd [] src) + 100) (length src + 100) edges).
  { pose proof (copyMakeBorder_shape src 50 Hrect) as Himg.
    apply mat_or_shape; [apply mat_or_shape|]; by apply HCanny, channel_shape. }
  destruct (findContours edges) as [contours hierarchy]. intros Hm.
  apply textBinary_from_binary in Hm as [_ Hm]. unfold size in Hm. simpl in Hm.
  rewrite (has_shape_cols _ _ _ Hedges), (has_shape_rows _ _ _ Hedges) in Hm by lia.
  rewrite !Nat2Z.id in Hm. split; [exact Hm|].
  rewrite (has_shape_cols _ _ _ Hm), (has_shape_rows _ _ _ Hm) by lia.
  unfold cols, rows. lia.
Qed.

Lemma textBinary_mask_size_witness :
  exists mask,
    textBinary pass_through two_traced 4 light_src = Ret mask
    /\ has_shape 120 120 mask.
Proof.
  eexists. split; [by vm_compute|].
  refine (proj1 (textBinary_mask_size sorting_nth_element pass_through two_traced 4
                   light_src _ (fun W H chan Hc => Hc) _ _)).
  - apply (bool_decide_unpack _). by vm_compute.
  - by vm_compute.
Defined.

(** ** The two thresholds *)

Lemma Qred_inject_add (a b : Z) : Qred (inject_Z a + inject_Z b) = inject_Z (a + b).
Proof.
  unfold inject_Z, Qplus. cbn [Qnum Qden]. rewrite !Z.mul_1_r.
  change (1 * 1)%positive with 1%positive. unfold Qred.
  pose proof (Z.ggcd_gcd (a + b) 1) as Hg.
  pose proof (Z.ggcd_correct_divisors (a + b) 1) as Hd.
  destruct (Z.ggcd (a + b) 1) as [g [aa bb]]. simpl in *.
  rewrite Z.gcd_1_r in Hg. subst g. destruct Hd as [Ha Hb].
  assert (aa = a + b) as -> by lia. assert (bb = 1) as -> by lia. reflexivity.
Qed.

(** The sum accumulated at lines 150-153 is a sum of integers. *)
Lemma foldl_add_sum (f : Point -> Z) (l : list Point) :
  forall a,
    foldl (fun acc point => add acc (of_int (f point))) (of_int a) l
    = of_int (a + foldr Z.add 0 (f <$> l)).
Proof.
  induction l as [|p l IH]; intros a; [simpl; by rewrite Z.add_0_r|].
  rewrite fmap_cons. cbn [foldl foldr].
  - change (add (of_int a) (of_int (f p)))
      with (Fin (Qred (inject_Z a + inject_Z (f p)))).
    rewrite Qred_inject_add. change (Fin (inject_Z (a + f p))) with (of_int (a + f p)).
    rewrite IH. f_equal. lia.
Qed.

Lemma sum_fmap_perm (f : Point -> Z) (l l' : list Point) :
  l ≡ₚ l' -> foldr Z.add 0 (f <$> l) = foldr Z.add 0 (f <$> l').
Proof. intros Hperm. induction Hperm; rewrite ?fmap_cons; cbn [foldr]; lia. Qed.

(** X14.  The foreground threshold does not depend on the order in which
    the contour lists its points, nor on where the trace of a closed
    contour starts: the lumas are summed as integers before the single
    division.  On an empty contour the division is 0/0, a NaN. *)
Theorem fgThresh_of_order_free (src : Mat3) (contour contour' : list Point) :
  (contour ≡ₚ contour' -> fgThresh_of src contour = fgThresh_of src contour')
  /\ (forall n, fgThresh_of src (rotate n contour) = fgThresh_of src contour)
  /\ fgThresh_of src (reverse contour) = fgThresh_of src contour
  /\ fgThresh_of src [] = NaN.
Proof.
  assert (Hperm : forall l l', l ≡ₚ l' -> fgThresh_of src l = fgThresh_of src l').
  { intros l l' Hp. unfold fgThresh_of. rewrite !foldl_add_sum.
    by rewrite (sum_fmap_perm _ _ _ Hp), (Permutation_length Hp). }
  split; [apply Hperm|]. split; [|split; [|reflexivity]].
  - intros n. apply Hperm. unfold rotate.
    etransitivity; [apply Permutation_app_comm|]. by rewrite take_drop.
  - apply Hperm. apply reverse_Permutation.
Qed.

Lemma fgThresh_of_order_free_witness :
  fgThresh_of halves_src [mkPoint 1 1; mkPoint 5 5; mkPoint 2 6]
  = fgThresh_of halves_src [mkPoint 2 6; mkPoint 1 1; mkPoint 5 5].
Proof.
  apply (proj1 (fgThresh_of_order_free halves_src [mkPoint 1 1; mkPoint 5 5; mkPoint 2 6]
                  [mkPoint 2 6; mkPoint 1 1; mkPoint 5 5])).
  apply (bool_decide_unpack _). by vm_compute.
Defined.

(** X15.  The background estimate depends on the samples only as a
    multiset, whatever [std::nth_element] does with them, and the reads
    at [len / 2] and [len / 2 + 1] stay inside the vector for every number
    of samples other than 0 and 2. *)
Theorem bgThresh_of_samples (I1 I2 : NthElement) (bgs : list Z) :
  (forall bgs', bgs ≡ₚ bgs' -> @bgThresh_of I1 bgs = @bgThresh_of I2 bgs')
  /\ ((exists d, @bgThresh_of I1 bgs = Ret d)
      <-> length bgs <> 0%nat /\ length bgs <> 2%nat).
Proof.
  split.
  - intros bgs' Hperm. rewrite !bgThresh_of_sorted. cbv zeta.
    rewrite <- (Permutation_length Hperm).
    assert (Hvec : forall i, vec_at (merge_sort Z.le bgs') i = vec_at (merge_sort Z.le bgs) i).
    { intros i. unfold vec_at. destruct (decide (0 <= i)); [|reflexivity].
      by rewrite (merge_sort_perm_eq bgs bgs') by (symmetry; exact Hperm). }
    by rewrite !Hvec.
  - rewrite bgThresh_of_sorted. cbv zeta.
    assert (Hlen : length (merge_sort Z.le bgs) = length bgs).
    { apply Permutation_length, merge_sort_Permutation. }
    set (len := Z.of_nat (length bgs)).
    assert (Hfault : forall i, Z.of_nat (length bgs) <= i ->
                               vec_at (merge_sort Z.le bgs) i = Fault).
    { intros i Hi. unfold vec_at. destruct (decide (0 <= i)); [|reflexivity].
      rewrite (proj2 (lookup_ge_None _ _)); [reflexivity | lia]. }
    assert (Hdiv : 0 <= len -> len = 2 * (len / 2) + len mod 2 /\ 0 <= len mod 2 < 2).
    { intros _. split; [apply Z.div_mod; lia | apply Z.mod_pos_bound; lia]. }
    specialize (Hdiv ltac:(lia)).
    split.
    + intros [d Hd].
      apply bind_Ret in Hd as (v & Hv & Hd).
      apply vec_at_Ret in Hv as [Hv0 Hv%lookup_lt_Some].
      destruct (decide (len mod 2 = 0)) as [Heven|Hodd]; [|lia].
      apply bind_Ret in Hd as (v' & Hv' & _).
      apply vec_at_Ret in Hv' as [_ Hv'%lookup_lt_Some]. lia.
    + intros [H0 H2].
      destruct (vec_at_in_range (merge_sort Z.le bgs) (len / 2)) as [v ->]; [lia|].
      simpl. destruct (decide (len mod 2 = 0)) as [Heven|Hodd]; [|eauto].
      destruct (vec_at_in_range (merge_sort Z.le bgs) (len / 2 + 1)) as [v' ->]; [lia|].
      simpl. eauto.
Qed.

Lemma bgThresh_of_samples_witness :
  @bgThresh_of sorting_nth_element [5; 1; 9; 7] = Ret (Fin (8 # 1))
  /\ @bgThresh_of sorting_nth_element [5; 1; 9; 7]
     = @bgThresh_of reversed_prefix_nth_element [9; 7; 5; 1].
Proof.
  split; [by vm_compute|].
  destruct (bgThresh_of_samples sorting_nth_element reversed_prefix_nth_element
              [5; 1; 9; 7]) as [H _].
  apply H. apply (bool_decide_unpack _). by vm_compute.
Defined.

(** ** Symmetry of the classifier and gray levels *)

Lemma boundingRect_mirror (contour : list Point) :
  boundingRect (mirror contour)
  = mkRect (r_y (boundingRect contour)) (r_x (boundingRect contour))
      (r_height (boundingRect contour)) (r_width (boundingRect contour)).
Proof.
  destruct contour as [|p ps]; [reflexivity|].
  unfold mirror. simpl. rewrite <- !list_fmap_compose. reflexivity.
Qed.

(** X17.  The classifier treats the two axes alike: exchanging the
    columns and rows of every point of a contour changes neither
    [hasTextRatio] nor [isConnected] nor [keep]. *)
Theorem keep_mirror (contour : list Point) (imgSize : Size) :
  hasTextRatio (mirror contour) imgSize = hasTextRatio contour imgSize
  /\ isConnected (mirror contour) = isConnected contour
  /\ keep (mirror contour) imgSize = keep contour imgSize.
Proof.
  assert (H1 : hasTextRatio (mirror contour) imgSize = hasTextRatio contour imgSize).
  { apply eq_true_iff_eq. rewrite !hasTextRatio_int. cbv zeta.
    rewrite boundingRect_mirror. simpl. unfold int_mul.
    rewrite (Z.mul_comm (r_height (boundingRect contour))). lia. }
  assert (H2 : isConnected (mirror contour) = isConnected contour).
  { rewrite !isConnected_head_last. unfold mirror.
    rewrite fmap_last. destruct contour as [|p ps]; [reflexivity|]. simpl head.
    destruct (last (p :: ps)) as [l|]; simpl; [|reflexivity].
    f_equal. apply andb_comm. }
  split; [exact H1|]. split; [exact H2|]. unfold keep. by rewrite H1, H2.
Qed.

(** X18.  On a gray pixel the sampler returns the gray level or one
    less: the three weights do not add up to 1 in binary64 and the
    conversion to [uchar] truncates. *)
Theorem luma_gray (v : Z) :
  0 <= v <= 255 ->
  luma (mkVec3b v v v) = v \/ luma (mkVec3b v v v) = v - 1.
Proof.
  intros Hv.
  assert (Hall : Forall (fun v => luma (mkVec3b v v v) = v \/ luma (mkVec3b v v v) = v - 1)
                   (seqZ 0 256)).
  { apply (bool_decide_unpack _). by vm_compute. }
  apply (proj1 (Forall_forall _ _) Hall). apply elem_of_seqZ. lia.
Qed.

Lemma luma_gray_witness :
  luma (mkVec3b 1 1 1) = 0 /\ (luma (mkVec3b 3 3 3) = 3 \/ luma (mkVec3b 3 3 3) = 3 - 1).
Proof.
  split; [by vm_compute|]. apply (luma_gray 3). lia.
Defined.

(** ** The background samples *)

(** X20.  The twelve background samples are taken at positions around
    the box, never inside it: one pixel before its first column and
    row, and one and two pixels beyond its last column and row. *)
Theorem bgs_of_outside (src : Mat3) (box : Rect) :
  0 <= r_width box -> 0 <= r_height box ->
  bgs_of src box = intensity src <$> bgs_points box
  /\ Forall (fun p => ~ in_box box (px p) (py p)
                      /\ r_x box - 1 <= px p <= r_x box + r_width box + 1
                      /\ r_y box - 1 <= py p <= r_y box + r_height box + 1)
       (bgs_points box).
Proof.
  intros Hw Hh. split; [reflexivity|].
  unfold bgs_points, in_box. cbv zeta.
  repeat (apply Forall_cons_2; [simpl; lia|]). apply Forall_nil_2.
Qed.

Lemma bgs_of_outside_witness :
  bgs_of halves_src halves_box = intensity halves_src <$> bgs_points halves_box
  /\ length (bgs_points halves_box) = 12%nat.
Proof.
  destruct (bgs_of_outside halves_src halves_box) as [H _]; [simpl; lia..|].
  split; [exact H | reflexivity].
Defined.
